(** * DetRatio: the determinant-ratio FanCI wavefunction

    Shallow embedding of [pyci/fanci/detratio.py] (class [DetRatio]) and the
    properties of its constructor and of its two methods [compute_overlap]
    and [compute_overlap_deriv].

    Modelling conventions.
    - Python integers that count or index (nbasis, nocc, numerator, ...) are
      [nat]; every one of them is non-negative in the source.  The entries of
      an index array are orbital indices and are [nat] as well: a negative
      entry, which numpy counts from the end of the axis, is outside the
      model.
    - [float64] values are idealised as real numbers [R]; [np.linalg.det]
      (an LU factorisation in LAPACK) is idealised as the exact determinant.
    - A one-dimensional [np.ndarray] is a [list]; a two-dimensional one is the
      list of its rows, a three-dimensional one the list of its matrices.
    - A raised Python exception is the [Raise] alternative of [result].
    - numpy answers a division by zero with inf or nan and does not raise;
      here it is the total division of [R], and no statement below depends
      on what a quotient by zero is worth. *)

From stdpp Require Import base list strings sorting.
From Stdlib Require Import Reals Lra Lia DecimalString.

(** ** Exceptions and the error monad *)

Inductive exn : Type :=
  | TypeError (msg : string)
  | ValueError (msg : string)
  | IndexError (msg : string)
  | LinAlgError (msg : string).

Inductive result (A : Type) : Type :=
  | Ok (a : A)
  | Raise (e : exn).

Arguments Ok {A} a.
Arguments Raise {A} e.

#[global] Instance result_ret : MRet result := λ A a, Ok a.

#[global] Instance result_bind : MBind result :=
  λ A B f m, match m with Ok a => f a | Raise e => Raise e end.

(** Decimal rendering of an integer inside an f-string. *)
Definition show_nat (n : nat) : string := NilEmpty.string_of_uint (Nat.to_uint n).

(** The exceptions that the source raises itself.  [InvalidSelector] is
    line 142 and line 185; the other four are the constructor's (lines 80,
    85, 97 and 99).  Messages of exceptions raised inside numpy are
    abbreviated. *)
Definition InvalidSelector : exn := ValueError "invalid `occs_array` argument".

Definition InvalidArgument_ham (type_name : string) : exn :=
  TypeError ("Invalid `ham` type `" +:+ type_name +:+ "`; must be `pyci.hamiltonian`").

Definition InvalidArgument_odd (nmatrices : nat) : exn :=
  ValueError ("Number of matrices `nmatrices=" +:+ show_nat nmatrices +:+ "` cannot be odd").

Definition InvalidArgument_wfn (type_name : string) : exn :=
  TypeError ("Invalid `wfn` type `" +:+ type_name +:+ "`; must be `pyci.doci_wfn`").

Definition InvalidArgument_nocc (nocc : nat) : exn :=
  ValueError ("wfn.nocc_{up,dn} does not match `nocc=" +:+ show_nat nocc +:+ "` parameter").

(** The error kind that the specification calls InvalidArgument: a bad
    constructor parameter. *)
Inductive InvalidArgument : exn → Prop :=
  | invalid_ham type_name : InvalidArgument (InvalidArgument_ham type_name)
  | invalid_odd nmatrices : InvalidArgument (InvalidArgument_odd nmatrices)
  | invalid_wfn type_name : InvalidArgument (InvalidArgument_wfn type_name)
  | invalid_nocc nocc : InvalidArgument (InvalidArgument_nocc nocc).

(** ** numpy primitives *)

Abbreviation vector := (list R).
Abbreviation matrix := (list (list R)).

#[global] Instance R_inhabited : Inhabited R := populate 0%R.

(** [a[i]] *)
Definition getitem {A} (a : list A) (i : nat) : result A :=
  match a !! i with
  | Some v => Ok v
  | None => Raise (IndexError "index out of bounds")
  end.

(** [a[i] = v] *)
Definition setitem {A} (a : list A) (i : nat) (v : A) : result (list A) :=
  if decide (i < length a) then Ok (<[i:=v]> a)
  else Raise (IndexError "index out of bounds").

(** [k] consecutive chunks of [n] elements each. *)
Fixpoint chunks {A} (k n : nat) (l : list A) : list (list A) :=
  match k with
  | 0 => []
  | S k' => take n l :: chunks k' n (drop n l)
  end.

(** [x.reshape(a, b, c)] (C order): fails unless [x] has exactly [a*b*c] entries. *)
Definition reshape3 (a b c : nat) (x : vector) : result (list matrix) :=
  if decide (length x = a * b * c) then Ok (chunks b c <$> chunks a (b * c) x)
  else Raise (ValueError "cannot reshape array").

(** [mat[rows]] and [mat[rows, :]]: the listed rows, in the listed order. *)
Definition take_rows (mat : matrix) (rows : list nat) : result matrix :=
  mapM (getitem mat) rows.

(** [mat[:, cols]] *)
Definition take_cols (mat : matrix) (cols : list nat) : result matrix :=
  mapM (λ row, mapM (getitem row) cols) mat.

(** [sum_{j in js} f j] *)
Definition Rsum (js : list nat) (f : nat → R) : R :=
  foldr (λ j acc, (f j + acc)%R) 0%R js.

(** [(-1)^k] *)
Definition parity (k : nat) : R := if Nat.odd k then (-1)%R else 1%R.

(** Determinant of an [n x n] matrix, expanded along its first row. *)
Fixpoint det (n : nat) (M : matrix) : R :=
  match n with
  | 0 => 1%R
  | S n' =>
      match M with
      | [] => 0%R
      | row :: rest =>
          Rsum (seq 0 n)
            (λ j, (parity j * (row !!! j) * det n' (delete j <$> rest))%R)
      end
  end.

(** [np.linalg.det(M)] for [M] of shape [(len(M), ncols)]. *)
Definition np_linalg_det (ncols : nat) (M : matrix) : result R :=
  if decide (length M = ncols) then Ok (det ncols M)
  else Raise (LinAlgError "Last 2 dimensions of the array must be square").

(** [np.prod(l)]; the product of no factor is [1.0]. *)
Definition np_prod (l : vector) : R := foldr Rmult 1%R l.

(** [np.searchsorted(a, v)] for ascending [a]: the leftmost insertion point,
    i.e. the index of the first element that is not below [v]. *)
Fixpoint searchsorted (a : list nat) (v : nat) : nat :=
  match a with
  | [] => 0
  | y :: a' => if decide (y < v) then S (searchsorted a' v) else 0
  end.

(** [for i in idx: s = body(i, s)]; Python leaves the loop variable bound to
    its last value once the loop is over, so it is threaded along. *)
Fixpoint for_range {S} (idx : list nat) (body : nat → S → result S)
    (i : nat) (s : S) : result (nat * S) :=
  match idx with
  | [] => Ok (i, s)
  | k :: idx' => s' ← body k s; for_range idx' body k s'
  end.

(** [range(lo, hi)] *)
Definition range (lo hi : nat) : list nat := seq lo (hi - lo).

(** ** Collaborators: Hamiltonian, wavefunction, FanCI base class *)

Record hamiltonian := { ham_nbasis : nat }.

Record doci_wfn := { wfn_nbasis : nat; nocc_up : nat; nocc_dn : nat }.

(** Dynamically typed arguments. *)
Inductive py_ham :=
  | HamObj (ham : hamiltonian)
  | HamOther (type_name : string).

Inductive py_wfn :=
  | WfnNone
  | WfnObj (wfn : doci_wfn)
  | WfnOther (type_name : string).

Inductive py_occs :=
  | OccsArray (a : list (list nat))
  | OccsStr (s : string)
  | OccsOther.

(** What [FanCI.__init__] leaves on the object, as far as [DetRatio] reads it. *)
Record FanCI := {
  base_wfn : doci_wfn;
  base_nproj : nat;
  base_nparam : nat;
  base_sspace : list (list nat);
  base_pspace : list (list nat)
}.

Record DetRatio := {
  _wfn : doci_wfn;
  _nproj : nat;
  _nparam : nat;
  _sspace : list (list nat);
  _pspace : list (list nat);
  _nmatrices : nat;
  _numerator : nat;
  _denominator : nat;
  _sspace_data : list (list nat);
  _pspace_data : list (list nat)
}.

(** A method reads [self] and returns its outcome together with [self] as the
    call leaves it. *)
Definition method (A : Type) : Type := DetRatio → result A * DetRatio.

(** ** Configurations *)

(** A configuration: [nocc] distinct occupied orbitals below [nbasis], ascending. *)
Definition valid_config (nbasis nocc : nat) (occs : list nat) : Prop :=
  length occs = nocc ∧ Forall (λ r, r < nbasis) occs ∧ StronglySorted lt occs.

#[global] Instance valid_config_dec nbasis nocc occs : Decision (valid_config nbasis nocc occs).
Proof. unfold valid_config. apply _. Defined.

(** ** Construction *)

Section Construction.
Context {kwargs : Type}.

(** [FanCI.__init__] is defined in pyci/fanci/fanci.py. *)
Variable FanCI_init :
  hamiltonian → doci_wfn → nat → nat → kwargs → result FanCI.

(** Lines 82-85: the number of matrices must be even. *)
Definition check_nmatrices (nmatrices : nat) : result () :=
  if decide (nmatrices mod 2 ≠ 0) then Raise (InvalidArgument_odd nmatrices)
  else Ok ().

(** Lines 93-99: default and validation of [wfn].  The default wavefunction
    is the record of its three arguments: [pyci.doci_wfn] (line 95) is taken
    to accept them. *)
Definition handle_wfn (ham : hamiltonian) (nocc : nat) (wfn : py_wfn) : result doci_wfn :=
  match wfn with
  | WfnNone => Ok {| wfn_nbasis := ham_nbasis ham; nocc_up := nocc; nocc_dn := nocc |}
  | WfnOther ty => Raise (InvalidArgument_wfn ty)
  | WfnObj w =>
      if decide (nocc_up w ≠ nocc ∨ nocc_dn w ≠ nocc) then Raise (InvalidArgument_nocc nocc)
      else Ok w
  end.

(** Lines 87-114: what the constructor does once the matrix count is accepted. *)
Definition init_tail (ham : hamiltonian) (nocc numerator denominator : nat)
    (nproj : option nat) (wfn : py_wfn) (kw : kwargs) : result DetRatio :=
  let nmatrices := numerator + denominator in
  let nparam := nmatrices * ham_nbasis ham * nocc + 1 in
  let nproj := default nparam nproj in
  wfn ← handle_wfn ham nocc wfn;
  base ← FanCI_init ham wfn nproj nparam kw;
  let arange := seq 0 (wfn_nbasis (base_wfn base)) in
  let sspace_data := (λ occs, searchsorted occs <$> arange) <$> base_sspace base in
  let pspace_data := take (base_nproj base) sspace_data in
  Ok {| _wfn := base_wfn base;
        _nproj := base_nproj base;
        _nparam := base_nparam base;
        _sspace := base_sspace base;
        _pspace := base_pspace base;
        _nmatrices := nmatrices;
        _numerator := numerator;
        _denominator := denominator;
        _sspace_data := sspace_data;
        _pspace_data := pspace_data |}.

(** [DetRatio.__init__] *)
Definition DetRatio_init (ham : py_ham) (nocc numerator denominator : nat)
    (nproj : option nat) (wfn : py_wfn) (kw : kwargs) : result DetRatio :=
  match ham with
  | HamOther ty => Raise (InvalidArgument_ham ty)
  | HamObj ham =>
      let nmatrices := numerator + denominator in
      _ ← check_nmatrices nmatrices;
      init_tail ham nocc numerator denominator nproj wfn kw
  end.

End Construction.

(** ** The two public methods *)

(** Lines 135-142 and 178-185: both methods start with the same dispatch on
    the dynamic type and value of [occs_array]. *)
Definition resolve_occs_array (self : DetRatio) (occs_array : py_occs) : result (list (list nat)) :=
  match occs_array with
  | OccsArray a => Ok a
  | OccsStr s =>
      if String.eqb s "P" then Ok (_pspace self)
      else if String.eqb s "S" then Ok (_sspace self)
      else Raise InvalidSelector
  | OccsOther => Raise InvalidSelector
  end.

(** [[np.linalg.det(mat[occs]) for mat in mats]] *)
Definition occ_dets (nocc : nat) (occs : list nat) (mats : list matrix) : result vector :=
  mapM (λ mat, sub ← take_rows mat occs; np_linalg_det nocc sub) mats.

(** Line 152-154: the overlap of one configuration. *)
Definition overlap_of (nocc : nat) (n_mats d_mats : list matrix) (occs : list nat) : result R :=
  n_dets ← occ_dets nocc occs n_mats;
  d_dets ← occ_dets nocc occs d_mats;
  mret (np_prod n_dets / np_prod d_dets)%R.

(** [DetRatio.compute_overlap] *)
Definition compute_overlap (x : vector) (occs_array : py_occs) : method vector :=
  λ self,
    (occs_array ← resolve_occs_array self occs_array;
     x_mats ← reshape3 (_nmatrices self) (wfn_nbasis (_wfn self)) (nocc_up (_wfn self)) x;
     let n_mats := take (_numerator self) x_mats in
     let d_mats := drop (_numerator self) x_mats in
     mapM (overlap_of (nocc_up (_wfn self)) n_mats d_mats) occs_array,
     self).

(** Lines 210-223 and 230-243: the body shared by the two derivative loops.
    [col_sign] is the factor of line 220 ([-1 if odd else +1]) in the first
    loop and that of line 240 ([+1 if odd else -1]) in the second. *)
Definition deriv_body (col_sign : nat → R) (self : DetRatio) (x_mats : list matrix)
    (dets : vector) (n_det_prod d_det_prod : R) (occs col_inds : list nat)
    (i : nat) (y_row : vector) : result vector :=
  let mat_size := wfn_nbasis (_wfn self) * nocc_up (_wfn self) in
  let m := i / mat_size in
  let n := i mod mat_size in
  let r := n / nocc_up (_wfn self) in
  let c := n mod nocc_up (_wfn self) in
  let rows := filter (λ o, o ≠ r) occs in
  let cols := filter (λ o, o ≠ c) col_inds in
  if decide (length rows = length cols ∧ length cols = 0) then
    setitem y_row i 1%R
  else if decide (length rows ≠ length occs ∧ length cols ≠ length col_inds) then
    let val := if decide (searchsorted occs r mod 2 ≠ 0) then (-1)%R else 1%R in
    let val := (val * col_sign (searchsorted col_inds c))%R in
    x_m ← getitem x_mats m;
    sub ← take_rows x_m rows;
    sub ← take_cols sub cols;
    minor ← np_linalg_det (length cols) sub;
    let val := (val * (n_det_prod * minor))%R in
    det_m ← getitem dets m;
    let val := (val / (d_det_prod * det_m))%R in
    setitem y_row i val
  else Ok y_row.

(** Line 220. *)
Definition numer_col_sign (p : nat) : R := if decide (p mod 2 ≠ 0) then (-1)%R else 1%R.

(** Line 240. *)
Definition denom_col_sign (p : nat) : R := if decide (p mod 2 ≠ 0) then 1%R else (-1)%R.

(** Lines 198-243: one row of the derivative matrix. *)
Definition deriv_row (self : DetRatio) (x_mats : list matrix) (col_inds : list nat)
    (y_row : vector) (occs : list nat) : result vector :=
  let mat_size := wfn_nbasis (_wfn self) * nocc_up (_wfn self) in
  dets ← occ_dets (nocc_up (_wfn self)) occs x_mats;
  let n_det_prod := np_prod (take (_numerator self) dets) in
  let d_det_prod := np_prod (drop (_numerator self) dets) in
  let i := 0 in
  '(i, y_row) ← for_range (range 0 (_numerator self * mat_size))
                  (deriv_body numer_col_sign self x_mats dets n_det_prod d_det_prod occs col_inds)
                  i y_row;
  let j := i + 1 in
  '(i, y_row) ← for_range (range j (j + _numerator self * mat_size))
                  (deriv_body denom_col_sign self x_mats dets n_det_prod d_det_prod occs col_inds)
                  i y_row;
  mret y_row.

(** [DetRatio.compute_overlap_deriv].  The width [self._nparam - 1] of the
    zero matrix of line 192 is a truncated subtraction here; construction
    makes [_nparam] at least 1. *)
Definition compute_overlap_deriv (x : vector) (occs_array : py_occs) : method (list vector) :=
  λ self,
    (occs_array ← resolve_occs_array self occs_array;
     x_mats ← reshape3 (_nmatrices self) (wfn_nbasis (_wfn self)) (nocc_up (_wfn self)) x;
     let y := replicate (length occs_array) (replicate (_nparam self - 1) 0%R) in
     let col_inds := seq 0 (nocc_up (_wfn self)) in
     mapM (λ '(y_row, occs), deriv_row self x_mats col_inds y_row occs) (zip y occs_array),
     self).

(** ** Engines given by their attributes *)

(** The object that construction leaves when the full space and the
    projection space are both [sspace]. *)
Definition engine (nbasis nocc numerator denominator : nat) (sspace : list (list nat)) : DetRatio :=
  {| _wfn := {| wfn_nbasis := nbasis; nocc_up := nocc; nocc_dn := nocc |};
     _nproj := length sspace;
     _nparam := (numerator + denominator) * nbasis * nocc + 1;
     _sspace := sspace;
     _pspace := sspace;
     _nmatrices := numerator + denominator;
     _numerator := numerator;
     _denominator := denominator;
     _sspace_data := (λ occs, searchsorted occs <$> seq 0 nbasis) <$> sspace;
     _pspace_data := (λ occs, searchsorted occs <$> seq 0 nbasis) <$> sspace |}.

(** ** Data model of the specification *)

(** What construction establishes and the methods rely on. *)
Record wf_engine (self : DetRatio) : Prop := {
  wf_nmatrices : _nmatrices self = _numerator self + _denominator self;
  wf_even : Nat.Even (_nmatrices self);
  wf_nparam :
    _nparam self = _nmatrices self * wfn_nbasis (_wfn self) * nocc_up (_wfn self) + 1;
  wf_sspace :
    Forall (valid_config (wfn_nbasis (_wfn self)) (nocc_up (_wfn self))) (_sspace self);
  wf_pspace : _pspace self = take (_nproj self) (_sspace self)
}.

(** The batch of configurations that a well-formed [occs_array] designates. *)
Inductive selects (self : DetRatio) : py_occs → list (list nat) → Prop :=
  | selects_array a : selects self (OccsArray a) a
  | selects_P : selects self (OccsStr "P") (_pspace self)
  | selects_S : selects self (OccsStr "S") (_sspace self).

(** Entry [(r, c)] of matrix [m] in the flat parameter vector. *)
Definition param_entry (self : DetRatio) (x : vector) (m r c : nat) : R :=
  x !!! ((m * wfn_nbasis (_wfn self) + r) * nocc_up (_wfn self) + c).

(** Matrix [m] restricted to the rows listed in [occs]. *)
Definition occ_matrix (self : DetRatio) (x : vector) (m : nat) (occs : list nat) : matrix :=
  (λ r, (λ c, param_entry self x m r c) <$> seq 0 (nocc_up (_wfn self))) <$> occs.

(** Determinant of matrix [m] on the occupied rows. *)
Definition occ_det (self : DetRatio) (x : vector) (occs : list nat) (m : nat) : R :=
  det (nocc_up (_wfn self)) (occ_matrix self x m occs).

(** Product of the numerator determinants, and of the denominator ones. *)
Definition numer_prod (self : DetRatio) (x : vector) (occs : list nat) : R :=
  np_prod (occ_det self x occs <$> seq 0 (_numerator self)).

Definition denom_prod (self : DetRatio) (x : vector) (occs : list nat) : R :=
  np_prod (occ_det self x occs <$> seq (_numerator self) (_denominator self)).

(** The overlap value as the specification words it. *)
Definition spec_overlap (self : DetRatio) (x : vector) (occs : list nat) : R :=
  (numer_prod self x occs / denom_prod self x occs)%R.

(** The minor of [mat[occs]] obtained by deleting its row [p] and column [c]. *)
Definition occ_minor (self : DetRatio) (x : vector) (m : nat) (occs : list nat) (p c : nat) : R :=
  det (nocc_up (_wfn self) - 1) (delete c <$> delete p (occ_matrix self x m occs)).

(** ** Notions used by the statements *)

(** The matrices that both methods obtain from [x.reshape(...)]. *)
Definition param_mats (self : DetRatio) (x : vector) : list matrix :=
  (λ m, (λ r, (λ c, param_entry self x m r c) <$> seq 0 (nocc_up (_wfn self)))
          <$> seq 0 (wfn_nbasis (_wfn self)))
    <$> seq 0 (_nmatrices self).

(** *** A model of the base-class constructor *)

(** Modelled from the spec: [FanCI.__init__] lives in pyci/fanci/fanci.py,
    outside the sources at hand.  The full space is the enumerated set of
    configurations (ascending lists of [nocc] orbitals below [nbasis]) and the
    projection space is its prefix of length [nproj]. *)
Fixpoint all_configs (nbasis nocc : nat) : list (list nat) :=
  match nbasis with
  | 0 => match nocc with 0 => [[]] | S _ => [] end
  | S nbasis' =>
      all_configs nbasis' nocc
      ++ match nocc with
         | 0 => []
         | S nocc' => (λ occs, occs ++ [nbasis']) <$> all_configs nbasis' nocc'
         end
  end.

Definition FanCI_init_model (ham : hamiltonian) (wfn : doci_wfn) (nproj nparam : nat)
    (kw : ()) : result FanCI :=
  if decide (wfn_nbasis wfn = ham_nbasis ham) then
    let sspace := all_configs (wfn_nbasis wfn) (nocc_up wfn) in
    Ok {| base_wfn := wfn; base_nproj := nproj; base_nparam := nparam;
          base_sspace := sspace; base_pspace := take nproj sspace |}
  else Raise (ValueError "basis of `ham` and `wfn` differ").

(** *** A sample *)

(** A two-orbital sample: one numerator and one denominator matrix, 2 x 2 each. *)
Definition sample_engine : DetRatio := engine 2 2 1 1 [[0; 1]].

Definition sample_x : vector := [1; 2; 3; 4; 5; 6; 7; 8]%R.

Definition sample_dets : vector := occ_det sample_engine sample_x [0; 1] <$> seq 0 2.

(** A sample with fewer numerator than denominator matrices: one numerator
    and three denominator matrices, 2 x 2 each. *)
Definition sample_wide : DetRatio := engine 2 2 1 3 [[0; 1]].

Definition sample_wide_x : vector :=
  [1; 2; 3; 4; 5; 6; 7; 8; 9; 10; 11; 12; 13; 14; 15; 16]%R.

(** *** Partial derivatives of the overlap *)

(** [x + h * e_i] *)
Definition perturb (x : vector) (i : nat) (h : R) : vector := alter (Rplus h) i x.

(** Component [k] of [compute_overlap(x, occs_array)]. *)
Definition overlap_value (self : DetRatio) (occs_array : py_occs) (k : nat) (x : vector) : R :=
  match fst (compute_overlap x occs_array self) with
  | Ok y => y !!! k
  | Raise _ => 0%R
  end.

(** [l] is the partial derivative at [x] of the overlap of configuration [k]
    with respect to parameter [i]. *)
Definition is_partial_derivative (self : DetRatio) (occs_array : py_occs) (k i : nat)
    (x : vector) (l : R) : Prop :=
  derivable_pt_lim (λ h, overlap_value self occs_array k (perturb x i h)) 0 l.

(** *** The effect of the derivative loops on a row *)

(** What an iteration does to the row: entry [k] is overwritten when [v k]
    is a value, and left alone otherwise. *)
Definition write_entry (v : nat → option R) (y_row : vector) (k : nat) : vector :=
  match v k with
  | Some a => <[k:=a]> y_row
  | None => y_row
  end.

(** The value, if any, that a loop with column factor [col_sign] stores at
    parameter index [i]. *)
Definition deriv_value (col_sign : nat → R) (self : DetRatio) (x : vector)
    (occs : list nat) (i : nat) : option R :=
  let mat_size := wfn_nbasis (_wfn self) * nocc_up (_wfn self) in
  let m := i / mat_size in
  let r := i mod mat_size / nocc_up (_wfn self) in
  let c := i mod mat_size mod nocc_up (_wfn self) in
  if decide (r ∈ occs) then
    if decide (nocc_up (_wfn self) = 1) then Some 1%R
    else
      let p := searchsorted occs r in
      Some (parity p * col_sign c
            * (numer_prod self x occs * occ_minor self x m occs p c)
            / (denom_prod self x occs * occ_det self x occs m))%R
  else None.

(** The row that [deriv_row] computes from [y_row] when no loop leaves the row. *)
Definition deriv_row_result (self : DetRatio) (x : vector) (y_row : vector)
    (occs : list nat) : vector :=
  let n := _numerator self * (wfn_nbasis (_wfn self) * nocc_up (_wfn self)) in
  foldl (write_entry (deriv_value denom_col_sign self x occs))
    (foldl (write_entry (deriv_value numer_col_sign self x occs)) y_row (seq 0 n))
    (seq n n).

(** Entry [i] of the row returned for [occs]: written by the first loop below
    [numerator * mat_size], by the second loop on the next
    [numerator * mat_size] indices, and zero elsewhere. *)
Definition deriv_entry (self : DetRatio) (x : vector) (occs : list nat) (i : nat) : R :=
  let mat_size := wfn_nbasis (_wfn self) * nocc_up (_wfn self) in
  let m := i / mat_size in
  let r := i mod mat_size / nocc_up (_wfn self) in
  let c := i mod mat_size mod nocc_up (_wfn self) in
  if decide (i < 2 * (_numerator self * mat_size) ∧ r ∈ occs) then
    if decide (nocc_up (_wfn self) = 1) then 1%R
    else
      let p := searchsorted occs r in
      (parity p
       * (if decide (i < _numerator self * mat_size)%nat then parity c else - parity c)
       * (numer_prod self x occs * occ_minor self x m occs p c)
       / (denom_prod self x occs * occ_det self x occs m))%R
  else 0%R.

(** Position of entry [(r, c)] of matrix [m] in the parameter vector. *)
Definition param_index (self : DetRatio) (m r c : nat) : nat :=
  (m * wfn_nbasis (_wfn self) + r) * nocc_up (_wfn self) + c.

(** *** Rows of an explicit array *)

(** A row that the methods can index the matrices with: [nocc] indices below
    [nbasis], in any order and possibly repeated. *)
Definition shaped_config (nbasis nocc : nat) (occs : list nat) : Prop :=
  length occs = nocc ∧ Forall (λ r, r < nbasis) occs.

#[global] Instance shaped_config_dec nbasis nocc occs :
  Decision (shaped_config nbasis nocc occs).
Proof. unfold shaped_config. apply _. Defined.

(** The rows of an integer index array that has no negative entry, as the
    methods read them. *)
Definition index_rows (A : list (list Z)) : list (list nat) :=
  (λ row : list Z, Z.to_nat <$> row) <$> A.

(** With one occupied orbital, the parameter of matrix [m] for orbital [r]. *)
Definition orbital_param (self : DetRatio) (x : vector) (r m : nat) : R :=
  x !!! (m * wfn_nbasis (_wfn self) + r).

(** A one-orbital sample: two orbitals, one numerator and one denominator
    matrix, 2 x 1 each. *)
Definition sample_single : DetRatio := engine 2 1 1 1 [[0]; [1]].

Definition sample_single_x : vector := [1; 2; 3; 4]%R.


(** The matrix [M] with its entry [(p, c)] replaced by [a]. *)
Definition set_entry (M : matrix) (p c : nat) (a : R) : matrix :=
  alter (λ row, <[c:=a]> row) p M.

(** * Properties *)

(** ** The error monad *)

Section Monad.
Context {A B : Type}.
Implicit Types (f : A → result B) (l : list A).

Lemma mapM_pure f (g : A → B) l :
  Forall (λ a, f a = Ok (g a)) l → mapM f l = Ok (g <$> l).
Proof.
  induction 1 as [|a l Ha _ IH]; [done|].
  cbn. rewrite Ha. cbn. by rewrite IH.
Qed.

Lemma mapM_fmap_pure {C} f (g : C → A) (h : C → B) (l : list C) :
  Forall (λ a, f (g a) = Ok (h a)) l → mapM f (g <$> l) = Ok (h <$> l).
Proof.
  induction 1 as [|a l Ha _ IH]; [done|].
  cbn. rewrite Ha. cbn. by rewrite IH.
Qed.

End Monad.

(** ** Indexing and reshaping *)

Lemma getitem_Ok {A} (a : list A) i v : a !! i = Some v → getitem a i = Ok v.
Proof. unfold getitem. by intros ->. Qed.

Lemma getitem_Raise {A} (a : list A) i :
  length a ≤ i → getitem a i = Raise (IndexError "index out of bounds").
Proof. unfold getitem. intros Hi. by rewrite lookup_ge_None_2. Qed.

Lemma getitem_fmap_seq {A} (f : nat → A) n i :
  i < n → getitem (f <$> seq 0 n) i = Ok (f i).
Proof.
  intros Hi. apply getitem_Ok.
  by rewrite list_lookup_fmap, lookup_seq_lt.
Qed.

Lemma setitem_Ok {A} (a : list A) i v : i < length a → setitem a i v = Ok (<[i:=v]> a).
Proof. unfold setitem. intros Hi. by rewrite decide_True. Qed.

Lemma setitem_Raise {A} (a : list A) i v :
  length a ≤ i → setitem a i v = Raise (IndexError "index out of bounds").
Proof. unfold setitem. intros Hi. rewrite decide_False; [done|lia]. Qed.

Lemma chunks_seq {A} (k n : nat) (l : list A) :
  chunks k n l = (λ i, take n (drop (i * n) l)) <$> seq 0 k.
Proof.
  revert l. induction k as [|k IH]; intros l; [done|].
  cbn [chunks]. rewrite IH. cbn [seq fmap list_fmap]. f_equal.
  rewrite <- fmap_S_seq, <- list_fmap_compose.
  apply list_fmap_ext. intros _ i _. cbn. by rewrite drop_drop.
Qed.

Lemma reshape3_Ok a b c (x : vector) :
  length x = a * b * c →
  reshape3 a b c x =
    Ok ((λ m, (λ r, (λ j, x !!! ((m * b + r) * c + j)) <$> seq 0 c) <$> seq 0 b) <$> seq 0 a).
Proof.
  intros Hlen. unfold reshape3. rewrite decide_True by done. f_equal.
  rewrite chunks_seq, <- list_fmap_compose.
  apply list_fmap_ext. intros m ? [-> Hm]%lookup_seq. cbn.
  rewrite chunks_seq. apply list_fmap_ext. intros r ? [-> Hr]%lookup_seq. cbn.
  assert (r * c + c ≤ b * c) by nia.
  assert (m * (b * c) + b * c ≤ a * b * c) by nia.
  apply list_eq. intros j. rewrite list_lookup_fmap.
  destruct (decide (j < c)) as [Hj|Hj].
  - rewrite lookup_take_lt, lookup_drop, lookup_take_lt, lookup_drop, lookup_seq_lt by lia.
    cbn. replace (m * (b * c) + (r * c + j)) with ((m * b + r) * c + j) by lia.
    apply list_lookup_lookup_total_lt. lia.
  - rewrite lookup_take_ge, lookup_seq_ge by lia. done.
Qed.

Lemma reshape3_Raise a b c (x : vector) :
  length x ≠ a * b * c → reshape3 a b c x = Raise (ValueError "cannot reshape array").
Proof. intros Hlen. unfold reshape3. by rewrite decide_False. Qed.

Lemma reshape3_param_mats self x :
  length x = _nmatrices self * wfn_nbasis (_wfn self) * nocc_up (_wfn self) →
  reshape3 (_nmatrices self) (wfn_nbasis (_wfn self)) (nocc_up (_wfn self)) x
  = Ok (param_mats self x).
Proof. intros Hlen. by rewrite reshape3_Ok. Qed.

Lemma param_mats_lookup self x m :
  m < _nmatrices self →
  param_mats self x !! m =
    Some ((λ r, (λ c, param_entry self x m r c) <$> seq 0 (nocc_up (_wfn self)))
            <$> seq 0 (wfn_nbasis (_wfn self))).
Proof. intros Hm. unfold param_mats. by rewrite list_lookup_fmap, lookup_seq_lt. Qed.

Lemma length_param_mats self x : length (param_mats self x) = _nmatrices self.
Proof. unfold param_mats. by rewrite length_fmap, length_seq. Qed.

(** ** Row and column selection *)

Lemma take_rows_fmap_seq (f : nat → vector) n rows :
  Forall (λ r, r < n) rows → take_rows (f <$> seq 0 n) rows = Ok (f <$> rows).
Proof.
  intros Hrows. apply mapM_pure. eapply Forall_impl; [done|].
  intros r Hr. by apply getitem_fmap_seq.
Qed.

Lemma take_cols_fmap_seq (f : nat → nat → R) n (rows cols : list nat) :
  Forall (λ c, c < n) cols →
  take_cols ((λ r, f r <$> seq 0 n) <$> rows) cols = Ok ((λ r, f r <$> cols) <$> rows).
Proof.
  intros Hcols. unfold take_cols.
  rewrite (mapM_pure _ (λ row : vector, (λ c, row !!! c) <$> cols)).
  - f_equal. rewrite <- list_fmap_compose. apply list_fmap_ext. intros _ r _. cbn.
    apply list_fmap_ext. intros ? c Hc%list_elem_of_lookup_2. 
    rewrite Forall_forall in Hcols. apply Hcols in Hc.
    apply list_lookup_total_correct. by rewrite list_lookup_fmap, lookup_seq_lt.
  - apply Forall_fmap, Forall_true. intros r. cbn.
    apply mapM_pure. eapply Forall_impl; [done|]. intros c Hc. cbn in *.
    apply getitem_Ok. rewrite list_lookup_fmap, lookup_seq_lt by done. cbn.
    f_equal. symmetry. apply list_lookup_total_correct.
    by rewrite list_lookup_fmap, lookup_seq_lt.
Qed.

Lemma length_occ_matrix self x m occs : length (occ_matrix self x m occs) = length occs.
Proof. unfold occ_matrix. by rewrite length_fmap. Qed.

(** The determinants of line 199, and the two products of lines 200-201. *)
Lemma occ_dets_param_mats self x occs k n :
  k + n ≤ _nmatrices self →
  valid_config (wfn_nbasis (_wfn self)) (nocc_up (_wfn self)) occs →
  occ_dets (nocc_up (_wfn self)) occs (take n (drop k (param_mats self x)))
  = Ok (occ_det self x occs <$> seq k n).
Proof.
  intros Hkn (Hlen & Hlt & _). unfold param_mats.
  rewrite <- fmap_drop, <- fmap_take, drop_seq, take_seq. cbn.
  replace (n `min` (_nmatrices self - k)) with n by lia.
  unfold occ_dets. apply mapM_fmap_pure, Forall_forall.
  intros m [_ Hm]%elem_of_seq. cbn.
  rewrite take_rows_fmap_seq by done. cbn.
  unfold np_linalg_det. rewrite decide_True; [done|].
  by rewrite length_fmap.
Qed.

(** ** Well-formed engines and configuration batches *)

Lemma wf_engine_engine nbasis nocc numerator denominator sspace :
  Nat.Even (numerator + denominator) →
  Forall (valid_config nbasis nocc) sspace →
  wf_engine (engine nbasis nocc numerator denominator sspace).
Proof. intros Heven Hvalid. split; cbn; try done. by rewrite take_ge. Qed.

Lemma resolve_selects self occs_array B :
  selects self occs_array B → resolve_occs_array self occs_array = Ok B.
Proof. by destruct 1. Qed.

Lemma selects_valid self occs_array B :
  wf_engine self →
  selects self occs_array B →
  (∀ a, occs_array = OccsArray a →
        Forall (valid_config (wfn_nbasis (_wfn self)) (nocc_up (_wfn self))) a) →
  Forall (valid_config (wfn_nbasis (_wfn self)) (nocc_up (_wfn self))) B.
Proof.
  intros Hwf Hsel Harr. destruct Hsel.
  - by apply Harr.
  - rewrite (wf_pspace _ Hwf). apply Forall_take, (wf_sspace _ Hwf).
  - apply (wf_sspace _ Hwf).
Qed.

Lemma wf_nparam_pred self :
  wf_engine self →
  _nparam self - 1 = _nmatrices self * wfn_nbasis (_wfn self) * nocc_up (_wfn self).
Proof. intros Hwf. rewrite (wf_nparam _ Hwf). lia. Qed.

(** ** compute_overlap *)

Lemma overlap_of_spec self x occs :
  wf_engine self →
  valid_config (wfn_nbasis (_wfn self)) (nocc_up (_wfn self)) occs →
  overlap_of (nocc_up (_wfn self)) (take (_numerator self) (param_mats self x))
    (drop (_numerator self) (param_mats self x)) occs
  = Ok (spec_overlap self x occs).
Proof.
  intros Hwf Hocc. unfold overlap_of.
  pose proof (wf_nmatrices _ Hwf) as Hn.
  rewrite <- (drop_0 (param_mats self x)) at 1.
  rewrite occ_dets_param_mats by (done || lia). cbn.
  rewrite <- (take_ge (drop _ _) (_denominator self))
    by (rewrite length_drop, length_param_mats; lia).
  rewrite occ_dets_param_mats by (done || lia). done.
Qed.

Lemma compute_overlap_fmap self x occs_array B :
  wf_engine self →
  length x = _nparam self - 1 →
  selects self occs_array B →
  Forall (valid_config (wfn_nbasis (_wfn self)) (nocc_up (_wfn self))) B →
  compute_overlap x occs_array self = (Ok (spec_overlap self x <$> B), self).
Proof.
  intros Hwf Hx Hsel HB. unfold compute_overlap. f_equal.
  rewrite (resolve_selects _ _ _ Hsel). cbn.
  rewrite reshape3_param_mats by (by rewrite <- wf_nparam_pred). cbn.
  apply mapM_pure. eapply Forall_impl; [done|].
  intros occs Hocc. by apply overlap_of_spec.
Qed.

(** C2. For a parameter vector of length nparam-1 and a batch of
    configurations, given as an array or selected by "P" or "S",
    [compute_overlap] returns one value per configuration, in input order:
    the product of the determinants of the numerator matrices restricted to
    the occupied rows, divided by the product of the determinants of the
    denominator matrices restricted to those rows. *)
Theorem compute_overlap_is_det_ratio self x occs_array B :
  wf_engine self →
  length x = _nparam self - 1 →
  selects self occs_array B →
  (∀ a, occs_array = OccsArray a →
        Forall (valid_config (wfn_nbasis (_wfn self)) (nocc_up (_wfn self))) a) →
  ∃ y, fst (compute_overlap x occs_array self) = Ok y
       ∧ length y = length B
       ∧ ∀ k occs, B !! k = Some occs → y !! k = Some (spec_overlap self x occs).
Proof.
  intros Hwf Hx Hsel Harr.
  pose proof (selects_valid _ _ _ Hwf Hsel Harr) as HB.
  rewrite (compute_overlap_fmap _ _ _ _ Hwf Hx Hsel HB).
  eexists. split; [done|]. split; [by rewrite length_fmap|].
  intros k occs Hk. by rewrite list_lookup_fmap, Hk.
Qed.

Lemma compute_overlap_is_det_ratio_witness :
  ∃ y, fst (compute_overlap [1; 2; 3; 4]%R (OccsStr "S") (engine 2 1 1 1 [[0]; [1]])) = Ok y
       ∧ length y = 2
       ∧ ∀ k occs, [[0]; [1]] !! k = Some occs →
           y !! k = Some (spec_overlap (engine 2 1 1 1 [[0]; [1]]) [1; 2; 3; 4]%R occs).
Proof.
  apply (compute_overlap_is_det_ratio (engine 2 1 1 1 [[0]; [1]]) [1; 2; 3; 4]%R
           (OccsStr "S") [[0]; [1]]).
  - apply wf_engine_engine; [by exists 1 | compute_done].
  - reflexivity.
  - apply selects_S.
  - intros a [=].
Defined.

(** ** Selector validation *)

(** C7. An [occs_array] that is neither an array nor "P" nor "S" makes both
    methods raise the invalid-selector error; this happens whatever the
    parameter vector is (nothing has been reshaped or computed yet) and the
    engine is left as it was. *)
Theorem invalid_selector_raises self x occs_array :
  (∀ a, occs_array ≠ OccsArray a) →
  occs_array ≠ OccsStr "P" →
  occs_array ≠ OccsStr "S" →
  compute_overlap x occs_array self = (Raise InvalidSelector, self)
  ∧ compute_overlap_deriv x occs_array self = (Raise InvalidSelector, self).
Proof.
  intros Harr HP HS.
  assert (resolve_occs_array self occs_array = Raise InvalidSelector) as Hres.
  { destruct occs_array as [a|s|]; cbn; [by destruct (Harr a)| |done].
    destruct (String.eqb_spec s "P") as [->|_]; [done|].
    destruct (String.eqb_spec s "S") as [->|_]; done. }
  unfold compute_overlap, compute_overlap_deriv. by rewrite Hres.
Qed.

Lemma invalid_selector_raises_witness :
  compute_overlap [] (OccsStr "Q") (engine 2 1 1 1 [[0]; [1]])
    = (Raise InvalidSelector, engine 2 1 1 1 [[0]; [1]])
  ∧ compute_overlap_deriv [] (OccsStr "Q") (engine 2 1 1 1 [[0]; [1]])
    = (Raise InvalidSelector, engine 2 1 1 1 [[0]; [1]]).
Proof.
  apply (invalid_selector_raises (engine 2 1 1 1 [[0]; [1]]) [] (OccsStr "Q"));
    [intros a|..]; discriminate.
Defined.

(** ** Construction *)

Section ConstructionProperties.
Context {kwargs : Type}.
Variable FanCI_init : hamiltonian → doci_wfn → nat → nat → kwargs → result FanCI.

Lemma check_nmatrices_odd n : Nat.Odd n → check_nmatrices n = Raise (InvalidArgument_odd n).
Proof.
  intros Hodd. unfold check_nmatrices. rewrite decide_True; [done|].
  apply Nat.odd_spec in Hodd. rewrite <- Nat.bit0_mod, Nat.bit0_odd, Hodd. done.
Qed.

Lemma check_nmatrices_even n : Nat.Even n → check_nmatrices n = Ok ().
Proof.
  intros Heven. unfold check_nmatrices. rewrite decide_False; [done|].
  intros Hne. apply Hne. by apply Nat.Div0.mod_divides, Nat.even_spec, Nat.even_spec.
Qed.

(** C8. An odd [numerator + denominator] makes the constructor fail with an
    invalid-argument error, so that no engine is produced: the odd-count
    error of line 85 whenever [ham] is a Hamiltonian (otherwise the type
    check of line 80 has already failed).  An even sum passes the odd-count
    check and construction goes on. *)
Theorem odd_matrix_count_rejected (ham : py_ham) nocc numerator denominator
    nproj wfn (kw : kwargs) :
  (Nat.Odd (numerator + denominator) →
     (∃ e, DetRatio_init FanCI_init ham nocc numerator denominator nproj wfn kw = Raise e
           ∧ InvalidArgument e)
     ∧ ∀ h, ham = HamObj h →
         DetRatio_init FanCI_init ham nocc numerator denominator nproj wfn kw
           = Raise (InvalidArgument_odd (numerator + denominator)))
  ∧ (Nat.Even (numerator + denominator) →
       check_nmatrices (numerator + denominator) = Ok ()
       ∧ ∀ h, ham = HamObj h →
           DetRatio_init FanCI_init ham nocc numerator denominator nproj wfn kw
             = init_tail FanCI_init h nocc numerator denominator nproj wfn kw).
Proof.
  split.
  - intros Hodd. split.
    + destruct ham as [h|ty]; cbn.
      * rewrite (check_nmatrices_odd _ Hodd). eexists. split; [done|constructor].
      * eexists. split; [done|constructor].
    + intros h ->. cbn. by rewrite (check_nmatrices_odd _ Hodd).
  - intros Heven. split; [by apply check_nmatrices_even|].
    intros h ->. cbn. by rewrite (check_nmatrices_even _ Heven).
Qed.


End ConstructionProperties.



Lemma odd_matrix_count_rejected_witness :
  ((∃ e, DetRatio_init FanCI_init_model (HamObj {| ham_nbasis := 3 |}) 1 2 1 None WfnNone ()
         = Raise e ∧ InvalidArgument e)
   ∧ ∀ h, HamObj {| ham_nbasis := 3 |} = HamObj h →
       DetRatio_init FanCI_init_model (HamObj {| ham_nbasis := 3 |}) 1 2 1 None WfnNone ()
         = Raise (InvalidArgument_odd (2 + 1)))
  ∧ (check_nmatrices (1 + 1) = Ok ()
     ∧ ∀ h, HamObj {| ham_nbasis := 3 |} = HamObj h →
         DetRatio_init FanCI_init_model (HamObj {| ham_nbasis := 3 |}) 1 1 1 None WfnNone ()
           = init_tail FanCI_init_model h 1 1 1 None WfnNone ()).
Proof.
  split.
  - apply (odd_matrix_count_rejected FanCI_init_model (HamObj {| ham_nbasis := 3 |}) 1 2 1
             None WfnNone ()).
    by exists 1.
  - apply (odd_matrix_count_rejected FanCI_init_model (HamObj {| ham_nbasis := 3 |}) 1 1 1
             None WfnNone ()).
    by exists 1.
Defined.

(** ** The length of the parameter vector *)

Lemma compute_overlap_reshape_error self x occs_array B :
  selects self occs_array B →
  length x ≠ _nmatrices self * wfn_nbasis (_wfn self) * nocc_up (_wfn self) →
  fst (compute_overlap x occs_array self) = Raise (ValueError "cannot reshape array")
  ∧ fst (compute_overlap_deriv x occs_array self) = Raise (ValueError "cannot reshape array").
Proof.
  intros Hsel Hlen. unfold compute_overlap, compute_overlap_deriv. cbn.
  rewrite (resolve_selects _ _ _ Hsel). cbn.
  by rewrite reshape3_Raise.
Qed.

(** C9, as the code has it.  The methods take the parameter vector without
    its trailing energy entry: a vector of length nparam is rejected by the
    reshape of both methods, and [compute_overlap] succeeds on its prefix of
    length nparam-1. *)
Theorem energy_entry_not_accepted self x occs_array B :
  wf_engine self →
  length x = _nparam self →
  selects self occs_array B →
  (∀ a, occs_array = OccsArray a →
        Forall (valid_config (wfn_nbasis (_wfn self)) (nocc_up (_wfn self))) a) →
  fst (compute_overlap x occs_array self) = Raise (ValueError "cannot reshape array")
  ∧ fst (compute_overlap_deriv x occs_array self) = Raise (ValueError "cannot reshape array")
  ∧ ∃ y, fst (compute_overlap (take (_nparam self - 1) x) occs_array self) = Ok y.
Proof.
  intros Hwf Hx Hsel Harr.
  pose proof (wf_nparam _ Hwf) as Hn.
  destruct (compute_overlap_reshape_error self x occs_array B Hsel) as [H1 H2]; [lia|].
  split_and!; [done..|].
  pose proof (selects_valid _ _ _ Hwf Hsel Harr) as HB.
  rewrite (compute_overlap_fmap self (take (_nparam self - 1) x) occs_array B);
    [by eexists|done| |done..].
  rewrite length_take. lia.
Qed.

Lemma energy_entry_not_accepted_witness :
  fst (compute_overlap [1; 2; 0]%R (OccsArray [[0]]) (engine 1 1 1 1 [[0]]))
    = Raise (ValueError "cannot reshape array")
  ∧ fst (compute_overlap_deriv [1; 2; 0]%R (OccsArray [[0]]) (engine 1 1 1 1 [[0]]))
    = Raise (ValueError "cannot reshape array")
  ∧ ∃ y, fst (compute_overlap (take 2 [1; 2; 0]%R) (OccsArray [[0]]) (engine 1 1 1 1 [[0]]))
         = Ok y.
Proof.
  apply (energy_entry_not_accepted (engine 1 1 1 1 [[0]]) [1; 2; 0]%R (OccsArray [[0]]) [[0]]).
  - apply wf_engine_engine; [by exists 1 | compute_done].
  - reflexivity.
  - apply selects_array.
  - intros a [= <-]. compute_done.
Defined.

(** C9 as stated fails: with the energy entry in place the call does not
    succeed, so it cannot agree with the call on the prefix. *)
Lemma energy_entry_counterexample :
  ¬ ∃ y, fst (compute_overlap [1; 2; 0]%R (OccsArray [[0]]) (engine 1 1 1 1 [[0]])) = Ok y
         ∧ fst (compute_overlap [1; 2]%R (OccsArray [[0]]) (engine 1 1 1 1 [[0]])) = Ok y.
Proof. intros (y & Hy & _). vm_compute in Hy. discriminate. Qed.

(** ** compute_overlap_deriv *)

Lemma occ_dets_all self x occs :
  valid_config (wfn_nbasis (_wfn self)) (nocc_up (_wfn self)) occs →
  occ_dets (nocc_up (_wfn self)) occs (param_mats self x)
  = Ok (occ_det self x occs <$> seq 0 (_nmatrices self)).
Proof.
  intros Hocc.
  rewrite <- (take_ge (param_mats self x) (_nmatrices self)) by (by rewrite length_param_mats).
  rewrite <- (drop_0 (param_mats self x)).
  by apply occ_dets_param_mats.
Qed.

Lemma deriv_row_no_numerator self x y_row occs :
  _numerator self = 0 →
  valid_config (wfn_nbasis (_wfn self)) (nocc_up (_wfn self)) occs →
  deriv_row self (param_mats self x) (seq 0 (nocc_up (_wfn self))) y_row occs = Ok y_row.
Proof.
  intros HN Hocc. unfold deriv_row.
  rewrite occ_dets_all by done. cbn. rewrite HN. cbn.
  unfold range. replace (1 - 0) with 1 by lia. replace (1 + 0 - 1) with 0 by lia.
  done.
Qed.

(** C10. With no numerator matrix the derivative loops do not iterate (the
    second loop takes its length from the numerator count as well) and
    [compute_overlap_deriv] returns the zero matrix of shape M x (nparam-1). *)
Theorem deriv_zero_without_numerator self x occs_array B :
  wf_engine self →
  _numerator self = 0 →
  length x = _nparam self - 1 →
  selects self occs_array B →
  (∀ a, occs_array = OccsArray a →
        Forall (valid_config (wfn_nbasis (_wfn self)) (nocc_up (_wfn self))) a) →
  fst (compute_overlap_deriv x occs_array self)
    = Ok (replicate (length B) (replicate (_nparam self - 1) 0%R))
  ∧ range 0 (_numerator self * (wfn_nbasis (_wfn self) * nocc_up (_wfn self))) = []
  ∧ range (0 + 1) (0 + 1 + _numerator self * (wfn_nbasis (_wfn self) * nocc_up (_wfn self)))
    = [].
Proof.
  intros Hwf HN Hx Hsel Harr.
  pose proof (selects_valid _ _ _ Hwf Hsel Harr) as HB.
  split; [|rewrite HN; unfold range; split; f_equal; lia].
  unfold compute_overlap_deriv. cbn.
  rewrite (resolve_selects _ _ _ Hsel). cbn.
  rewrite reshape3_param_mats by (by rewrite <- wf_nparam_pred). cbn.
  rewrite (mapM_pure _ fst).
  - f_equal. apply fst_zip. by rewrite length_replicate.
  - apply Forall_forall. intros [y_row occs] Hin%elem_of_zip_r.
    rewrite Forall_forall in HB. by apply deriv_row_no_numerator, HB.
Qed.

Lemma deriv_zero_without_numerator_witness :
  fst (compute_overlap_deriv [1; 2; 3; 4]%R (OccsStr "P") (engine 2 1 0 2 [[0]; [1]]))
    = Ok (replicate 2 (replicate 4 0%R))
  ∧ range 0 (0 * (2 * 1)) = []
  ∧ range (0 + 1) (0 + 1 + 0 * (2 * 1)) = [].
Proof.
  apply (deriv_zero_without_numerator (engine 2 1 0 2 [[0]; [1]]) [1; 2; 3; 4]%R
           (OccsStr "P") [[0]; [1]]).
  - apply wf_engine_engine; [by exists 1 | compute_done].
  - reflexivity.
  - reflexivity.
  - apply selects_P.
  - intros a [=].
Defined.

(** *** Sorted configurations: insertion positions and row removal *)

Lemma StronglySorted_lt_NoDup (l : list nat) : StronglySorted lt l → NoDup l.
Proof.
  induction 1 as [|y l _ IH Hy]; constructor; [|done].
  intros Hin. rewrite Forall_forall in Hy. specialize (Hy _ Hin). lia.
Qed.

Lemma StronglySorted_lt_seq s n : StronglySorted lt (seq s n).
Proof.
  revert s. induction n as [|n IH]; intros s; cbn; constructor; [done|].
  apply Forall_forall. intros k [? _]%elem_of_seq. lia.
Qed.

Lemma searchsorted_position (l : list nat) p r :
  StronglySorted lt l → l !! p = Some r → searchsorted l r = p.
Proof.
  intros Hsort. revert p. induction Hsort as [|y l _ IH Hy]; intros p; [done|].
  destruct p as [|p]; cbn.
  - intros [= ->]. rewrite decide_False; [done|lia].
  - intros Hp. rewrite Forall_forall in Hy.
    rewrite decide_True by (by apply Hy, list_elem_of_lookup_2 with p).
    by rewrite (IH _ Hp).
Qed.

Lemma filter_ne_absent (l : list nat) r : r ∉ l → filter (λ o, o ≠ r) l = l.
Proof.
  induction l as [|z l IH]; [done|]. intros [Hz Hl]%not_elem_of_cons.
  rewrite filter_cons_True by done. f_equal. by apply IH.
Qed.

Lemma filter_ne_delete (l : list nat) p r :
  NoDup l → l !! p = Some r → filter (λ o, o ≠ r) l = delete p l.
Proof.
  intros Hnd. revert p. induction Hnd as [|y l Hy _ IH]; intros p; [done|].
  destruct p as [|p]; intros Hp; cbn in Hp.
  - injection Hp as ->. rewrite filter_cons_False by (intros Hne; by apply Hne).
    by apply filter_ne_absent.
  - rewrite filter_cons_True.
    + change (delete (S p) (y :: l)) with (y :: delete p l). f_equal. by apply IH.
    + intros ->. apply Hy. by apply list_elem_of_lookup_2 with p.
Qed.

Lemma row_sign_parity p : (if decide (p mod 2 ≠ 0) then (-1)%R else 1%R) = parity p.
Proof.
  unfold parity. destruct (Nat.odd p) eqn:Hodd.
  - apply Nat.odd_spec in Hodd as [k ->]. rewrite decide_True; [done|].
    replace (2 * k + 1) with (1 + k * 2) by lia. by rewrite Nat.Div0.mod_add.
  - assert (Nat.even p = true) as [k ->]%Nat.even_spec by (by rewrite <- Nat.negb_odd, Hodd).
    rewrite decide_False; [done|]. intros Hne. apply Hne.
    replace (2 * k) with (k * 2) by lia. apply Nat.Div0.mod_mul.
Qed.

Lemma numer_col_sign_parity c : numer_col_sign c = parity c.
Proof. apply row_sign_parity. Qed.

Lemma denom_col_sign_parity c : denom_col_sign c = (- parity c)%R.
Proof.
  rewrite <- row_sign_parity. unfold denom_col_sign. case_decide; lra.
Qed.

(** Decomposition of a parameter index into matrix, row and column. *)
Lemma param_index_bounds nm nb no i :
  i < nm * nb * no →
  i / (nb * no) < nm ∧ i mod (nb * no) / no < nb ∧ i mod (nb * no) mod no < no.
Proof.
  intros Hi. assert (nb * no ≠ 0 ∧ no ≠ 0) as [Hms Hno] by (split; intros ?; nia).
  split_and!.
  - apply Nat.Div0.div_lt_upper_bound. lia.
  - apply Nat.Div0.div_lt_upper_bound. pose proof (Nat.mod_upper_bound i _ Hms). lia.
  - by apply Nat.mod_upper_bound.
Qed.

(** *** One iteration of a derivative loop *)

Section DerivBody.
Variable self : DetRatio.
Variable x : vector.
Variable occs : list nat.

Let nb := wfn_nbasis (_wfn self).
Let no := nocc_up (_wfn self).
Let nm := _nmatrices self.

Hypothesis Hocc : valid_config nb no occs.

Variable col_sign : nat → R.
Variables n_det_prod d_det_prod : R.

Let body :=
  deriv_body col_sign self (param_mats self x) (occ_det self x occs <$> seq 0 nm)
    n_det_prod d_det_prod occs (seq 0 no).

Lemma minor_selection m p c :
  m < nm → is_Some (occs !! p) → c < no →
  ∃ x_m, param_mats self x !! m = Some x_m
    ∧ (take_rows x_m (delete p occs) ≫= λ sub, take_cols sub (delete c (seq 0 no)))
      = Ok (delete c <$> delete p (occ_matrix self x m occs)).
Proof.
  intros Hm Hp Hc. destruct Hocc as (Hlen & Hlt & Hsort).
  eexists. split; [by apply param_mats_lookup|].
  rewrite take_rows_fmap_seq.
  2:{ apply Forall_forall. intros r Hr%list_elem_of_delete_inv.
      rewrite Forall_forall in Hlt. by apply Hlt. }
  cbn. rewrite (take_cols_fmap_seq (param_entry self x m)).
  2:{ apply Forall_forall. intros k [_ Hk]%list_elem_of_delete_inv%elem_of_seq. done. }
  f_equal. unfold occ_matrix. rewrite <- list_fmap_delete, <- list_fmap_compose.
  apply list_fmap_ext. intros _ r _. cbn. by rewrite list_fmap_delete.
Qed.

(** The row is occupied and the minor is not empty: lines 218-223, 238-243. *)
Lemma deriv_body_occupied i y_row p :
  1 < no →
  i < nm * nb * no →
  i < length y_row →
  occs !! p = Some (i mod (nb * no) / no) →
  body i y_row =
    Ok (<[i := (parity p * col_sign (i mod (nb * no) mod no)
                * (n_det_prod * occ_minor self x (i / (nb * no)) occs p (i mod (nb * no) mod no))
                / (d_det_prod * occ_det self x occs (i / (nb * no))))%R]> y_row).
Proof.
  intros Hno Hi Hy Hp.
  destruct (param_index_bounds _ _ _ _ Hi) as (Hm & Hr & Hc).
  pose proof Hocc as (Hlen & Hlt & Hsort).
  unfold body, deriv_body. fold nb no.
  set (m := i / (nb * no)) in *. set (r := i mod (nb * no) / no) in *.
  set (c := i mod (nb * no) mod no) in *.
  rewrite (filter_ne_delete occs p r) by (done || by apply StronglySorted_lt_NoDup).
  rewrite (filter_ne_delete (seq 0 no) c c) by (apply NoDup_seq || by apply lookup_seq_lt).
  rewrite !length_delete, length_seq, Hlen by (by rewrite ?lookup_seq_lt).
  rewrite decide_False by lia. rewrite decide_True by lia.
  rewrite (searchsorted_position occs p r) by done.
  rewrite (searchsorted_position (seq 0 no) c c)
    by (apply StronglySorted_lt_seq || by apply lookup_seq_lt).
  rewrite row_sign_parity.
  destruct (minor_selection m p c) as (x_m & Hx_m & Hsub); [done..|].
  rewrite (getitem_Ok _ _ _ Hx_m). cbn.
  destruct (take_rows x_m (delete p occs)) as [sub|]; [|done]. cbn in Hsub |- *.
  rewrite Hsub. cbn.
  unfold np_linalg_det. rewrite decide_True.
  2:{ rewrite length_fmap, length_delete, length_occ_matrix; [lia|].
      apply lookup_lt_is_Some. rewrite length_occ_matrix.
      by apply lookup_lt_Some with r. }
  cbn. rewrite (getitem_fmap_seq (occ_det self x occs)) by done. cbn.
  by rewrite setitem_Ok.
Qed.

(** The row is not occupied: no branch applies, the entry stays as it is. *)
Lemma deriv_body_unoccupied i y_row :
  i < nm * nb * no →
  i mod (nb * no) / no ∉ occs →
  body i y_row = Ok y_row.
Proof.
  intros Hi Hr.
  destruct (param_index_bounds _ _ _ _ Hi) as (Hm & _ & Hc).
  pose proof Hocc as (Hlen & Hlt & Hsort).
  unfold body, deriv_body. fold nb no.
  rewrite filter_ne_absent by done.
  rewrite (filter_ne_delete (seq 0 no) (i mod (nb * no) mod no) (i mod (nb * no) mod no))
    by (apply NoDup_seq || by apply lookup_seq_lt).
  rewrite length_delete, length_seq, Hlen by (by rewrite lookup_seq_lt).
  rewrite decide_False by lia. rewrite decide_False by lia. done.
Qed.

(** One occupied orbital, and it is the row of the entry: lines 216-217, 236-237. *)
Lemma deriv_body_single i y_row :
  no = 1 →
  i < nm * nb * no →
  i mod (nb * no) / no ∈ occs →
  body i y_row = setitem y_row i 1%R.
Proof.
  intros Hno Hi Hr.
  destruct (param_index_bounds _ _ _ _ Hi) as (Hm & _ & Hc).
  pose proof Hocc as (Hlen & Hlt & Hsort).
  apply list_elem_of_lookup in Hr as [p Hp].
  unfold body, deriv_body. fold nb no.
  rewrite (filter_ne_delete occs p _ (StronglySorted_lt_NoDup _ Hsort) Hp).
  rewrite (filter_ne_delete (seq 0 no) (i mod (nb * no) mod no) (i mod (nb * no) mod no))
    by (apply NoDup_seq || by apply lookup_seq_lt).
  rewrite !length_delete, length_seq, Hlen by (by rewrite ?lookup_seq_lt).
  rewrite decide_True by lia. done.
Qed.
(** Past the last parameter (which only the second loop can reach): an
    unoccupied row is skipped as before, an occupied one makes the body index
    out of bounds, [y_row[i]] on line 237 or [x_mats[m]] on line 241. *)
Lemma deriv_body_past_end i y_row :
  0 < no →
  nm * nb * no ≤ i →
  length y_row = nm * nb * no →
  body i y_row =
    if decide (i mod (nb * no) / no ∈ occs) then Raise (IndexError "index out of bounds")
    else Ok y_row.
Proof.
  intros Hno Hi Hy.
  pose proof Hocc as (Hlen & Hlt & Hsort).
  assert (i mod (nb * no) mod no < no) as Hc by (apply Nat.mod_upper_bound; lia).
  unfold body, deriv_body. fold nb no.
  set (m := i / (nb * no)). set (r := i mod (nb * no) / no).
  set (c := i mod (nb * no) mod no) in *.
  rewrite (filter_ne_delete (seq 0 no) c c) by (apply NoDup_seq || by apply lookup_seq_lt).
  rewrite length_delete, length_seq by (by rewrite lookup_seq_lt).
  destruct (decide (r ∈ occs)) as [Hr|Hr].
  - apply list_elem_of_lookup in Hr as [p Hp].
    rewrite (filter_ne_delete occs p r (StronglySorted_lt_NoDup _ Hsort) Hp).
    rewrite length_delete, Hlen by done.
    destruct (decide (no = 1)) as [Hone|Hone].
    + rewrite decide_True by lia. apply setitem_Raise. lia.
    + rewrite decide_False by lia. rewrite decide_True by lia.
      rewrite (getitem_Raise (param_mats self x) m); [done|].
      rewrite length_param_mats. fold nm.
      pose proof (Forall_lookup_1 _ _ _ _ Hlt Hp) as Hrnb. cbn in Hrnb.
      unfold m. apply Nat.div_le_lower_bound; nia.
  - rewrite filter_ne_absent by done. rewrite Hlen.
    rewrite decide_False by lia. rewrite decide_False by lia. done.
Qed.
End DerivBody.

Lemma np_prod_take_drop_dets self x occs :
  wf_engine self →
  np_prod (take (_numerator self) (occ_det self x occs <$> seq 0 (_nmatrices self)))
    = numer_prod self x occs
  ∧ np_prod (drop (_numerator self) (occ_det self x occs <$> seq 0 (_nmatrices self)))
    = denom_prod self x occs.
Proof.
  intros Hwf. pose proof (wf_nmatrices _ Hwf) as Hn.
  rewrite <- fmap_take, <- fmap_drop, take_seq, drop_seq. unfold numer_prod, denom_prod.
  split; do 3 f_equal; lia.
Qed.

(** ** The derivative loops as a whole *)

Lemma length_write_entry v y_row k : length (write_entry v y_row k) = length y_row.
Proof. unfold write_entry. destruct (v k); [apply length_insert|done]. Qed.

Lemma length_foldl_write_entry v idx y_row :
  length (foldl (write_entry v) y_row idx) = length y_row.
Proof.
  revert y_row. induction idx as [|k idx IH]; intros y_row; [done|].
  cbn. by rewrite IH, length_write_entry.
Qed.

Lemma write_entry_lookup v y_row j k :
  j < length y_row →
  write_entry v y_row j !! k =
    if decide (k = j) then match v k with Some a => Some a | None => y_row !! k end
    else y_row !! k.
Proof.
  intros Hj. unfold write_entry. case_decide as Hk.
  - subst k. destruct (v j); [by apply list_lookup_insert_eq|done].
  - destruct (v j); [by apply list_lookup_insert_ne|done].
Qed.

Lemma foldl_write_entry_lookup v idx y_row k :
  (∀ j, j ∈ idx → j < length y_row) →
  foldl (write_entry v) y_row idx !! k =
    if decide (k ∈ idx) then match v k with Some a => Some a | None => y_row !! k end
    else y_row !! k.
Proof.
  revert y_row. induction idx as [|j idx IH]; intros y_row Hidx.
  { cbn. rewrite decide_False; [done|]. apply not_elem_of_nil. }
  cbn [foldl]. rewrite IH.
  2:{ intros j' Hj'. rewrite length_write_entry. apply Hidx. by right. }
  rewrite write_entry_lookup by (apply Hidx; by left).
  destruct (decide (k = j)) as [->|Hne].
  - rewrite (decide_True (P := j ∈ j :: idx)) by (by left).
    case_decide; by destruct (v j).
  - destruct (decide (k ∈ idx)) as [Hin|Hin].
    + rewrite decide_True; [done|by right].
    + rewrite decide_False; [done|]. by intros [?|?]%elem_of_cons.
Qed.

Lemma last_cons_default {A} (i0 k : A) (l : list A) :
  default i0 (last (k :: l)) = default k (last l).
Proof. rewrite last_cons. by destruct (last l). Qed.

(** A loop whose iterations all succeed. *)
Lemma for_range_foldl v body idx i0 y_row L :
  (∀ k y, k ∈ idx → length y = L → body k y = Ok (write_entry v y k)) →
  length y_row = L →
  for_range idx body i0 y_row = Ok (default i0 (last idx), foldl (write_entry v) y_row idx).
Proof.
  revert i0 y_row. induction idx as [|k idx IH]; intros i0 y_row Hbody Hy; [done|].
  cbn [for_range foldl]. rewrite Hbody by (done || by left). cbn.
  rewrite IH; [by rewrite last_cons_default| |by rewrite length_write_entry].
  intros k' y Hk' Hlen. apply Hbody; [by right|done].
Qed.

(** A loop with an iteration that raises, all iterations either succeeding
    (and keeping the length of the row) or raising that same exception. *)
Lemma for_range_raises {S} (len : S → nat) body idx i0 (s : S) L e :
  (∀ k s, k ∈ idx → len s = L →
     (∃ s', body k s = Ok s' ∧ len s' = L) ∨ body k s = Raise e) →
  (∃ k, k ∈ idx ∧ ∀ s, len s = L → body k s = Raise e) →
  len s = L →
  for_range idx body i0 s = Raise e.
Proof.
  revert i0 s. induction idx as [|k idx IH]; intros i0 s Hbody (k0 & Hk0 & Hraise) Hs.
  { by apply elem_of_nil in Hk0. }
  cbn [for_range].
  destruct (Hbody k s) as [(s' & Heq & Hs')|Heq]; [by left|done| |by rewrite Heq].
  rewrite Heq. cbn. apply IH; [| |done].
  - intros k' s'' Hk'. apply Hbody. by right.
  - apply elem_of_cons in Hk0 as [Hk|Hk0]; [|by eauto].
    subst k0. rewrite (Hraise s Hs) in Heq. discriminate.
Qed.

Lemma deriv_body_value col_sign self x occs i y_row :
  valid_config (wfn_nbasis (_wfn self)) (nocc_up (_wfn self)) occs →
  i < _nmatrices self * wfn_nbasis (_wfn self) * nocc_up (_wfn self) →
  length y_row = _nmatrices self * wfn_nbasis (_wfn self) * nocc_up (_wfn self) →
  deriv_body col_sign self (param_mats self x)
    (occ_det self x occs <$> seq 0 (_nmatrices self))
    (numer_prod self x occs) (denom_prod self x occs) occs
    (seq 0 (nocc_up (_wfn self))) i y_row
  = Ok (write_entry (deriv_value col_sign self x occs) y_row i).
Proof.
  intros Hocc Hi Hy. unfold write_entry, deriv_value.
  destruct (decide (_ ∈ occs)) as [Hr|Hr].
  - destruct (decide (nocc_up (_wfn self) = 1)) as [Hone|Hone].
    + rewrite (deriv_body_single self x occs Hocc) by done.
      apply setitem_Ok. lia.
    + pose proof Hr as [p Hp]%list_elem_of_lookup.
      rewrite (searchsorted_position occs p _ (proj2 (proj2 Hocc)) Hp).
      apply (deriv_body_occupied self x occs Hocc); [nia|done|lia|done].
  - by apply (deriv_body_unoccupied self x occs Hocc).
Qed.

Lemma last_seq_S s n : last (seq s (S n)) = Some (s + n).
Proof. by rewrite seq_S, last_snoc. Qed.

Lemma loop_index_bound N D nb no k :
  k < N * (nb * no) + (N `min` D) * (nb * no) → k < (N + D) * nb * no.
Proof. rewrite <- (Nat.mul_assoc _ nb no). generalize (nb * no). intros ms. nia. Qed.

(** The index range of the second loop, given where the first one left [i]. *)
Lemma second_range n :
  range (default 0 (last (seq 0 n)) + 1) (default 0 (last (seq 0 n)) + 1 + n) = seq n n.
Proof.
  destruct n as [|n]; [done|]. rewrite last_seq_S. unfold range.
  replace (default 0 (Some (0 + n)) + 1) with (S n) by (cbn; lia).
  f_equal. lia.
Qed.

Lemma deriv_row_first_loop self x occs y_row i0 :
  wf_engine self →
  valid_config (wfn_nbasis (_wfn self)) (nocc_up (_wfn self)) occs →
  length y_row = _nmatrices self * wfn_nbasis (_wfn self) * nocc_up (_wfn self) →
  let n := _numerator self * (wfn_nbasis (_wfn self) * nocc_up (_wfn self)) in
  for_range (range 0 n)
    (deriv_body numer_col_sign self (param_mats self x)
       (occ_det self x occs <$> seq 0 (_nmatrices self))
       (numer_prod self x occs) (denom_prod self x occs) occs (seq 0 (nocc_up (_wfn self))))
    i0 y_row
  = Ok (default i0 (last (seq 0 n)),
        foldl (write_entry (deriv_value numer_col_sign self x occs)) y_row (seq 0 n)).
Proof.
  intros Hwf Hocc Hy n. pose proof (wf_nmatrices _ Hwf) as Hnm.
  unfold range. rewrite Nat.sub_0_r.
  apply for_range_foldl with (L := length y_row); [|done].
  intros k y [_ Hk]%elem_of_seq Hlen. apply deriv_body_value; [done| |congruence].
  rewrite Hnm. apply loop_index_bound. unfold n in Hk. lia.
Qed.

Lemma deriv_row_foldl self x occs y_row :
  wf_engine self →
  _numerator self ≤ _denominator self →
  valid_config (wfn_nbasis (_wfn self)) (nocc_up (_wfn self)) occs →
  length y_row = _nmatrices self * wfn_nbasis (_wfn self) * nocc_up (_wfn self) →
  deriv_row self (param_mats self x) (seq 0 (nocc_up (_wfn self))) y_row occs
  = Ok (deriv_row_result self x y_row occs).
Proof.
  intros Hwf HND Hocc Hy. pose proof (wf_nmatrices _ Hwf) as Hnm.
  unfold deriv_row. rewrite occ_dets_all by done. cbn.
  destruct (np_prod_take_drop_dets self x occs Hwf) as [-> ->].
  rewrite deriv_row_first_loop by done. cbn.
  rewrite second_range.
  erewrite for_range_foldl with (L := length y_row); [done| |].
  - intros k y [Hk1 Hk2]%elem_of_seq Hlen. apply deriv_body_value; [done| |congruence].
    rewrite Hnm. apply loop_index_bound. rewrite Nat.min_l by done. lia.
  - by rewrite length_foldl_write_entry.
Qed.

Lemma zip_replicate_l {A B} (a : A) (l : list B) :
  zip (replicate (length l) a) l = (λ b, (a, b)) <$> l.
Proof. induction l as [|b l IH]; [done|]. cbn. by rewrite IH. Qed.

Lemma compute_overlap_deriv_fmap self x occs_array B :
  wf_engine self →
  _numerator self ≤ _denominator self →
  length x = _nparam self - 1 →
  selects self occs_array B →
  Forall (valid_config (wfn_nbasis (_wfn self)) (nocc_up (_wfn self))) B →
  compute_overlap_deriv x occs_array self
  = (Ok (deriv_row_result self x (replicate (_nparam self - 1) 0%R) <$> B), self).
Proof.
  intros Hwf HND Hx Hsel HB. unfold compute_overlap_deriv. f_equal.
  rewrite (resolve_selects _ _ _ Hsel). cbn.
  rewrite reshape3_param_mats by (by rewrite <- wf_nparam_pred). cbn.
  rewrite zip_replicate_l.
  apply mapM_fmap_pure. eapply Forall_impl; [done|]. intros occs Hocc. cbn.
  apply deriv_row_foldl; [done..|].
  by rewrite length_replicate, wf_nparam_pred.
Qed.

Lemma deriv_row_result_lookup self x occs i :
  wf_engine self →
  _numerator self ≤ _denominator self →
  i < _nparam self - 1 →
  deriv_row_result self x (replicate (_nparam self - 1) 0%R) occs !! i
  = Some (deriv_entry self x occs i).
Proof.
  intros Hwf HND Hi. pose proof (wf_nmatrices _ Hwf) as Hnm.
  rewrite wf_nparam_pred in * by done.
  unfold deriv_row_result, deriv_entry.
  set (n := _numerator self * (wfn_nbasis (_wfn self) * nocc_up (_wfn self))).
  assert (∀ k, k < n + n → k < _nmatrices self * wfn_nbasis (_wfn self) * nocc_up (_wfn self))
    as Hbound.
  { intros k Hk. rewrite Hnm. apply loop_index_bound. rewrite Nat.min_l by done. lia. }
  rewrite foldl_write_entry_lookup.
  2:{ intros j [_ Hj]%elem_of_seq.
      rewrite length_foldl_write_entry, length_replicate. by apply Hbound. }
  rewrite foldl_write_entry_lookup.
  2:{ intros j [_ Hj]%elem_of_seq. rewrite length_replicate. apply Hbound. lia. }
  rewrite lookup_replicate_2 by done.
  unfold deriv_value. rewrite numer_col_sign_parity, denom_col_sign_parity.
  repeat case_decide; try done; exfalso; rewrite ?elem_of_seq in *; destruct_and?;
    first [ lia | contradiction
          | match goal with
            | Hn : ¬ (_ < _ ∧ _ ∈ _) |- _ => apply Hn; split; [lia|done]
            end ].
Qed.

(** When there are at least as many denominator as numerator matrices, the
    call returns and every entry of the matrix is [deriv_entry]. *)
Theorem compute_overlap_deriv_entries self x occs_array B :
  wf_engine self →
  _numerator self ≤ _denominator self →
  length x = _nparam self - 1 →
  selects self occs_array B →
  (∀ a, occs_array = OccsArray a →
        Forall (valid_config (wfn_nbasis (_wfn self)) (nocc_up (_wfn self))) a) →
  ∃ y, fst (compute_overlap_deriv x occs_array self) = Ok y
       ∧ length y = length B
       ∧ ∀ k occs, B !! k = Some occs →
           ∃ row, y !! k = Some row
                  ∧ length row = _nparam self - 1
                  ∧ ∀ i, i < _nparam self - 1 → row !! i = Some (deriv_entry self x occs i).
Proof.
  intros Hwf HND Hx Hsel Harr.
  pose proof (selects_valid _ _ _ Hwf Hsel Harr) as HB.
  rewrite (compute_overlap_deriv_fmap _ _ _ _ Hwf HND Hx Hsel HB).
  eexists. split; [done|]. split; [by rewrite length_fmap|].
  intros k occs Hk. eexists. split; [by rewrite list_lookup_fmap, Hk|].
  split.
  - unfold deriv_row_result. by rewrite !length_foldl_write_entry, length_replicate.
  - intros i Hi. by apply deriv_row_result_lookup.
Qed.

(** *** More numerator than denominator matrices *)

Lemma past_end_index nm nb no r0 :
  r0 < nb → 0 < no → (nm * (nb * no) + r0 * no) mod (nb * no) / no = r0.
Proof.
  intros Hr Hno. rewrite Nat.add_comm, Nat.Div0.mod_add.
  rewrite Nat.mod_small by (apply Nat.mul_lt_mono_pos_r; lia).
  apply Nat.div_mul. lia.
Qed.

Lemma past_end_index_in_second_loop N D nb no r0 :
  D < N → r0 < nb → 0 < no →
  N * (nb * no) ≤ (N + D) * (nb * no) + r0 * no
  ∧ (N + D) * (nb * no) + r0 * no < N * (nb * no) + N * (nb * no).
Proof.
  intros HDN Hr Hno.
  assert (r0 * no < nb * no) by (apply Nat.mul_lt_mono_pos_r; lia).
  generalize dependent (nb * no). generalize (r0 * no). intros q ms Hq.
  assert ((N + D + 1) * ms ≤ (N + N) * ms) by (apply Nat.mul_le_mono_r; lia).
  lia.
Qed.

Lemma deriv_row_raises self x occs y_row :
  wf_engine self →
  _denominator self < _numerator self →
  0 < nocc_up (_wfn self) →
  valid_config (wfn_nbasis (_wfn self)) (nocc_up (_wfn self)) occs →
  length y_row = _nmatrices self * wfn_nbasis (_wfn self) * nocc_up (_wfn self) →
  deriv_row self (param_mats self x) (seq 0 (nocc_up (_wfn self))) y_row occs
  = Raise (IndexError "index out of bounds").
Proof.
  intros Hwf HDN Hno Hocc Hy. pose proof (wf_nmatrices _ Hwf) as Hnm.
  unfold deriv_row. rewrite occ_dets_all by done. cbn.
  destruct (np_prod_take_drop_dets self x occs Hwf) as [-> ->].
  rewrite deriv_row_first_loop by done. cbn.
  rewrite second_range.
  rewrite (for_range_raises length _ _ _ _ (length y_row)
             (IndexError "index out of bounds")); [done| | |].
  - intros k y _ Hlen. rewrite Hy in Hlen.
    destruct (decide (k < _nmatrices self * wfn_nbasis (_wfn self) * nocc_up (_wfn self)))
      as [Hk|Hk].
    + left. rewrite deriv_body_value by done. eexists. split; [done|].
      by rewrite length_write_entry, Hy.
    + rewrite (deriv_body_past_end self x occs Hocc) by (done || lia).
      case_decide; [by right|left]. eexists. split; [done|congruence].
  - pose proof Hocc as (Hlen & Hlt & Hsort).
    destruct occs as [|r0 occs]; [cbn in Hlen; lia|].
    apply Forall_cons in Hlt as [Hr0 _].
    destruct (past_end_index_in_second_loop (_numerator self) (_denominator self)
                (wfn_nbasis (_wfn self)) (nocc_up (_wfn self)) r0) as [Hlo Hhi]; [done..|].
    exists (_nmatrices self * (wfn_nbasis (_wfn self) * nocc_up (_wfn self))
            + r0 * nocc_up (_wfn self)).
    split; [apply elem_of_seq; rewrite Hnm; lia|].
    intros y Hlen'. rewrite Hy in Hlen'.
    rewrite (deriv_body_past_end self x (r0 :: occs) Hocc)
      by (done || (rewrite <- (Nat.mul_assoc (_nmatrices self)); lia)).
    rewrite past_end_index by done. rewrite decide_True; [done|by left].
  - by rewrite length_foldl_write_entry.
Qed.

(** With more numerator than denominator matrices, at least one occupied
    orbital and a non-empty batch, [compute_overlap_deriv] always raises. *)
Theorem compute_overlap_deriv_raises self x occs_array B :
  wf_engine self →
  _denominator self < _numerator self →
  0 < nocc_up (_wfn self) →
  B ≠ [] →
  length x = _nparam self - 1 →
  selects self occs_array B →
  (∀ a, occs_array = OccsArray a →
        Forall (valid_config (wfn_nbasis (_wfn self)) (nocc_up (_wfn self))) a) →
  fst (compute_overlap_deriv x occs_array self) = Raise (IndexError "index out of bounds").
Proof.
  intros Hwf HDN Hno HB Hx Hsel Harr.
  pose proof (selects_valid _ _ _ Hwf Hsel Harr) as Hvalid.
  unfold compute_overlap_deriv. cbn.
  rewrite (resolve_selects _ _ _ Hsel). cbn.
  rewrite reshape3_param_mats by (by rewrite <- wf_nparam_pred). cbn.
  destruct B as [|occs B]; [done|]. apply Forall_cons in Hvalid as [Hocc _].
  cbn. rewrite deriv_row_raises; [done..|].
  by rewrite length_replicate, wf_nparam_pred.
Qed.

(** *** Entries named by matrix, row and column *)

Lemma param_index_decompose self m r c :
  r < wfn_nbasis (_wfn self) →
  c < nocc_up (_wfn self) →
  let mat_size := wfn_nbasis (_wfn self) * nocc_up (_wfn self) in
  param_index self m r c / mat_size = m
  ∧ param_index self m r c mod mat_size / nocc_up (_wfn self) = r
  ∧ param_index self m r c mod mat_size mod nocc_up (_wfn self) = c.
Proof.
  intros Hr Hc mat_size. unfold param_index, mat_size.
  set (nb := wfn_nbasis (_wfn self)) in *. set (no := nocc_up (_wfn self)) in *.
  assert (r * no + c < nb * no) as Hlt by nia.
  replace ((m * nb + r) * no + c) with (r * no + c + m * (nb * no)) by lia.
  rewrite Nat.div_add, Nat.Div0.mod_add by lia.
  rewrite (Nat.div_small _ _ Hlt), (Nat.mod_small _ _ Hlt).
  replace (r * no + c) with (c + r * no) by lia.
  rewrite Nat.div_add, Nat.Div0.mod_add by lia.
  rewrite (Nat.div_small _ _ Hc), (Nat.mod_small _ _ Hc). done.
Qed.

Lemma param_index_lt self m r c :
  m < _nmatrices self → r < wfn_nbasis (_wfn self) → c < nocc_up (_wfn self) →
  param_index self m r c < _nmatrices self * wfn_nbasis (_wfn self) * nocc_up (_wfn self).
Proof.
  intros Hm Hr Hc. unfold param_index.
  assert ((m + 1) * wfn_nbasis (_wfn self) ≤ _nmatrices self * wfn_nbasis (_wfn self))
    by (apply Nat.mul_le_mono_r; lia).
  assert ((m * wfn_nbasis (_wfn self) + r + 1) * nocc_up (_wfn self)
          ≤ _nmatrices self * wfn_nbasis (_wfn self) * nocc_up (_wfn self))
    by (apply Nat.mul_le_mono_r; lia).
  lia.
Qed.

Lemma param_index_matrix_bound self m r c k :
  r < wfn_nbasis (_wfn self) →
  c < nocc_up (_wfn self) →
  param_index self m r c < k * (wfn_nbasis (_wfn self) * nocc_up (_wfn self)) ↔ m < k.
Proof.
  intros Hr Hc. unfold param_index.
  set (nb := wfn_nbasis (_wfn self)) in *. set (no := nocc_up (_wfn self)) in *.
  assert (r * no + c < nb * no) as Hlt by nia.
  replace ((m * nb + r) * no + c) with (m * (nb * no) + (r * no + c)) by lia.
  generalize dependent (nb * no). generalize (r * no + c). intros q ms Hq.
  split; intros Hm.
  - destruct (decide (m < k)) as [|Hge]; [done|].
    assert (k * ms ≤ m * ms) by (apply Nat.mul_le_mono_r; lia). lia.
  - assert ((m + 1) * ms ≤ k * ms) by (apply Nat.mul_le_mono_r; lia). lia.
Qed.

(** One occupied orbital: the entry of the occupied row is 1.0 for the first
    [2 * numerator] matrices and stays 0.0 for the other ones. *)
Lemma deriv_entry_single_orbital self x r0 m :
  nocc_up (_wfn self) = 1 →
  r0 < wfn_nbasis (_wfn self) →
  deriv_entry self x [r0] (param_index self m r0 0)
  = if decide (m < 2 * _numerator self) then 1%R else 0%R.
Proof.
  intros Hno Hr0.
  destruct (param_index_decompose self m r0 0) as (Hm & Hr & Hc); [done|lia|].
  unfold deriv_entry. rewrite Hm, Hr, Hno.
  unfold param_index. rewrite Hno.
  pose proof (param_index_matrix_bound self m r0 0 (2 * _numerator self)) as Hb.
  rewrite <- Nat.mul_assoc in Hb. unfold param_index in Hb. rewrite Hno in Hb.
  destruct (decide (m < 2 * _numerator self)) as [Hlt|Hge].
  - rewrite decide_True; [done|]. split; [apply Hb; (done || lia)|by left].
  - rewrite decide_False; [done|]. intros [Hlt _]. apply Hge, Hb; (done || lia).
Qed.

(** More than one occupied orbital: the entry of an occupied row, for the
    matrices that the loops reach. *)
Lemma deriv_entry_occupied self x occs m r c p :
  1 < nocc_up (_wfn self) →
  valid_config (wfn_nbasis (_wfn self)) (nocc_up (_wfn self)) occs →
  occs !! p = Some r →
  c < nocc_up (_wfn self) →
  m < 2 * _numerator self →
  deriv_entry self x occs (param_index self m r c)
  = (parity p * (if decide (m < _numerator self)%nat then parity c else - parity c)
     * (numer_prod self x occs * occ_minor self x m occs p c)
     / (denom_prod self x occs * occ_det self x occs m))%R.
Proof.
  intros Hno (Hlen & Hlt & Hsort) Hp Hc Hm.
  pose proof (Forall_lookup_1 _ _ _ _ Hlt Hp) as Hr. cbn in Hr.
  destruct (param_index_decompose self m r c) as (Hm' & Hr' & Hc'); [done..|].
  unfold deriv_entry. rewrite Hm', Hr', Hc'.
  rewrite (searchsorted_position occs p r Hsort Hp).
  pose proof (param_index_matrix_bound self m r c (2 * _numerator self) Hr Hc) as Hb2.
  rewrite <- Nat.mul_assoc in Hb2.
  pose proof (param_index_matrix_bound self m r c (_numerator self) Hr Hc) as Hb1.
  rewrite decide_True by (split; [by apply Hb2|by apply list_elem_of_lookup_2 with p]).
  rewrite decide_False by lia.
  destruct (decide (m < _numerator self)) as [Hlt'|Hge].
  - rewrite decide_True; [done|]. by apply Hb1.
  - rewrite decide_False; [done|]. intros Hlt'. by apply Hge, Hb1.
Qed.

(** An entry that no loop writes. *)
Lemma deriv_entry_zero self x occs m r c :
  r < wfn_nbasis (_wfn self) →
  c < nocc_up (_wfn self) →
  r ∉ occs ∨ 2 * _numerator self ≤ m →
  deriv_entry self x occs (param_index self m r c) = 0%R.
Proof.
  intros Hr Hc Hcase.
  destruct (param_index_decompose self m r c) as (Hm' & Hr' & Hc'); [done..|].
  pose proof (param_index_matrix_bound self m r c (2 * _numerator self) Hr Hc) as Hb.
  rewrite <- Nat.mul_assoc in Hb.
  unfold deriv_entry. rewrite Hr'. rewrite decide_False; [done|].
  intros [Hlt Hin]. destruct Hcase as [Hout|Hge]; [done|].
  apply Hb in Hlt. lia.
Qed.

(** *** The sample, entry by entry *)

(** On the sample (numerator [[1, 2], [3, 4]], denominator [[5, 6], [7, 8]],
    overlap (-2) / (-2)) the method returns the gradient of the ratio: the
    cofactors of the numerator over -2, then those of the denominator times
    2 / 4. *)
Example sample_derivative :
  ∃ row, fst (compute_overlap_deriv sample_x (OccsArray [[0; 1]]) sample_engine) = Ok [row]
         ∧ row = [-2; 3 / 2; 1; -1 / 2; 4; -7 / 2; -3; 5 / 2]%R.
Proof.
  eexists. split; [vm_compute; reflexivity|].
  repeat f_equal; field; lra.
Qed.

(** With one occupied orbital and as many denominator as numerator matrices,
    every matrix has 1.0 at the entry of the occupied row. *)
Lemma single_orbital_entries_are_one self x occs_array B k r0 m :
  wf_engine self →
  _numerator self = _denominator self →
  nocc_up (_wfn self) = 1 →
  length x = _nparam self - 1 →
  selects self occs_array B →
  (∀ a, occs_array = OccsArray a →
        Forall (valid_config (wfn_nbasis (_wfn self)) (nocc_up (_wfn self))) a) →
  B !! k = Some [r0] →
  m < _nmatrices self →
  ∃ y row, fst (compute_overlap_deriv x occs_array self) = Ok y
           ∧ y !! k = Some row
           ∧ row !! param_index self m r0 0 = Some 1%R.
Proof.
  intros Hwf HND Hno Hx Hsel Harr Hk Hm.
  pose proof (selects_valid _ _ _ Hwf Hsel Harr) as HB.
  pose proof (Forall_lookup_1 _ _ _ _ HB Hk) as (_ & [Hr0 _]%Forall_cons & _).
  destruct (compute_overlap_deriv_entries self x occs_array B) as (y & Hy & _ & Hrows);
    [done|lia|done..|].
  destruct (Hrows k [r0] Hk) as (row & Hrow & _ & Hentries).
  exists y, row. split_and!; [done..|].
  rewrite Hentries.
  - rewrite deriv_entry_single_orbital by done.
    rewrite decide_True; [done|]. rewrite (wf_nmatrices _ Hwf) in Hm. lia.
  - rewrite wf_nparam_pred by done. apply param_index_lt; [done..|lia].
Qed.

(** With one occupied orbital and fewer numerator than denominator matrices,
    the matrices from index [2 * numerator] on keep 0.0 at that entry. *)
Lemma single_orbital_entries_left_zero self x occs_array B k r0 m :
  wf_engine self →
  _numerator self < _denominator self →
  nocc_up (_wfn self) = 1 →
  length x = _nparam self - 1 →
  selects self occs_array B →
  (∀ a, occs_array = OccsArray a →
        Forall (valid_config (wfn_nbasis (_wfn self)) (nocc_up (_wfn self))) a) →
  B !! k = Some [r0] →
  2 * _numerator self ≤ m < _nmatrices self →
  ∃ y row, fst (compute_overlap_deriv x occs_array self) = Ok y
           ∧ y !! k = Some row
           ∧ row !! param_index self m r0 0 = Some 0%R.
Proof.
  intros Hwf HND Hno Hx Hsel Harr Hk [Hm1 Hm2].
  pose proof (selects_valid _ _ _ Hwf Hsel Harr) as HB.
  pose proof (Forall_lookup_1 _ _ _ _ HB Hk) as (_ & [Hr0 _]%Forall_cons & _).
  destruct (compute_overlap_deriv_entries self x occs_array B) as (y & Hy & _ & Hrows);
    [done|lia|done..|].
  destruct (Hrows k [r0] Hk) as (row & Hrow & _ & Hentries).
  exists y, row. split_and!; [done..|].
  rewrite Hentries.
  - rewrite deriv_entry_single_orbital by done.
    rewrite decide_False; [done|lia].
  - rewrite wf_nparam_pred by done. apply param_index_lt; [done..|lia].
Qed.

(** ** Where the derivative matrix departs from the specification *)

(** C3. The second loop runs over [numerator * mat_size] indices, not
    [denominator * mat_size]: with two numerator matrices and no denominator
    matrix (an even count, one orbital, one configuration) it walks past the
    end of the row and the call raises instead of returning a 1 x 2 matrix. *)
Theorem deriv_raises_when_numerator_exceeds_denominator :
  wf_engine (engine 1 1 2 0 [[0]])
  ∧ length [1; 1]%R = _nparam (engine 1 1 2 0 [[0]]) - 1
  ∧ fst (compute_overlap_deriv [1; 1]%R (OccsArray [[0]]) (engine 1 1 2 0 [[0]]))
    = Raise (IndexError "index out of bounds").
Proof.
  split_and!; [|reflexivity..].
  apply wf_engine_engine; [by exists 1 | compute_done].
Qed.

(** C5. One occupied orbital, no numerator matrix, two denominator matrices:
    the entries of the occupied row are left at zero for both matrices,
    where the specification has 1.0. *)
Theorem single_orbital_entry_not_written (a b : R) :
  wf_engine (engine 1 1 0 2 [[0]])
  ∧ fst (compute_overlap_deriv [a; b] (OccsArray [[0]]) (engine 1 1 0 2 [[0]]))
    = Ok [[0; 0]%R].
Proof.
  split; [|reflexivity].
  apply wf_engine_engine; [by exists 1 | compute_done].
Qed.

(** C4. In the matrix that [compute_overlap_deriv] returns (more than one
    occupied orbital, at most as many numerator as denominator matrices), the
    entry (r, c) of matrix m, for r occupied at position p of the ascending
    configuration, is the scaled minor (row p and column c deleted, times the
    product of the numerator determinants, over the product of the
    denominator determinants times the determinant of matrix m) times the
    row parity (-1)^p and the column factor: (-1)^c for the numerator
    matrices, -(-1)^c for the denominator matrices of index below
    2 * numerator.  The second loop stops there: for the denominator
    matrices of index 2 * numerator and more the entry is 0.0, which is not
    the signed minor unless that is zero. *)
Theorem deriv_sign_convention self x occs_array B k occs m r c p :
  wf_engine self →
  _numerator self ≤ _denominator self →
  1 < nocc_up (_wfn self) →
  length x = _nparam self - 1 →
  selects self occs_array B →
  (∀ a, occs_array = OccsArray a →
        Forall (valid_config (wfn_nbasis (_wfn self)) (nocc_up (_wfn self))) a) →
  B !! k = Some occs →
  occs !! p = Some r →
  c < nocc_up (_wfn self) →
  m < _nmatrices self →
  let scaled_minor :=
    (numer_prod self x occs * occ_minor self x m occs p c
     / (denom_prod self x occs * occ_det self x occs m))%R in
  ∃ y row v,
    fst (compute_overlap_deriv x occs_array self) = Ok y
    ∧ y !! k = Some row
    ∧ row !! param_index self m r c = Some v
    ∧ (m < _numerator self → v = (parity p * parity c * scaled_minor)%R)
    ∧ (_numerator self ≤ m < 2 * _numerator self →
       v = (parity p * - parity c * scaled_minor)%R)
    ∧ (2 * _numerator self ≤ m →
       v = 0%R
       ∧ (scaled_minor ≠ 0%R → v ≠ (parity p * - parity c * scaled_minor)%R)).
Proof.
  intros Hwf HND Hno Hx Hsel Harr Hk Hp Hc Hm scaled_minor.
  pose proof (selects_valid _ _ _ Hwf Hsel Harr) as HB.
  pose proof (Forall_lookup_1 _ _ _ _ HB Hk) as Hocc.
  pose proof Hocc as (Hlen & Hlt & Hsort).
  pose proof (Forall_lookup_1 _ _ _ _ Hlt Hp) as Hr. cbn in Hr.
  assert (param_index self m r c < _nparam self - 1) as Hi.
  { rewrite wf_nparam_pred by done. by apply param_index_lt. }
  rewrite (compute_overlap_deriv_fmap _ _ _ _ Hwf HND Hx Hsel HB).
  eexists _, _, _.
  split_and!; [done|by rewrite list_lookup_fmap, Hk|by apply deriv_row_result_lookup|..].
  - intros Hnum. rewrite (deriv_entry_occupied self x occs m r c p) by (done || lia).
    rewrite decide_True by done. unfold scaled_minor, Rdiv. ring.
  - intros [Hge Hlt2]. rewrite (deriv_entry_occupied self x occs m r c p) by done.
    rewrite decide_False by lia. unfold scaled_minor, Rdiv. ring.
  - intros Hge. rewrite deriv_entry_zero by (done || by right).
    split; [done|]. intros Hnz Heq.
    assert (parity p ≠ 0%R) as Hpp by (unfold parity; destruct (Nat.odd p); lra).
    assert (parity c ≠ 0%R) as Hpc by (unfold parity; destruct (Nat.odd c); lra).
    symmetry in Heq. revert Heq.
    apply Rmult_integral_contrapositive_currified; [|done].
    apply Rmult_integral_contrapositive_currified; [done|].
    by apply Ropp_neq_0_compat.
Qed.

(** On the sample with three denominator matrices, the scaled minor of the
    entry (0, 0) of the denominator matrix of index 2 is -3/2. *)
Example sample_wide_scaled_minor :
  (numer_prod sample_wide sample_wide_x [0; 1]%nat
   * occ_minor sample_wide sample_wide_x 2 [0; 1]%nat 0 0
   / (denom_prod sample_wide sample_wide_x [0; 1]%nat
      * occ_det sample_wide sample_wide_x [0; 1]%nat 2))%R
  = (- 3 / 2)%R.
Proof.
  unfold numer_prod, denom_prod, occ_minor, occ_det, occ_matrix, param_entry, parity.
  cbn. field.
Qed.

Lemma deriv_sign_convention_witness :
  ∃ y row v,
    fst (compute_overlap_deriv sample_wide_x (OccsStr "S") sample_wide) = Ok y
    ∧ y !! 0 = Some row
    ∧ row !! param_index sample_wide 2 0 0 = Some v
    ∧ (2 < _numerator sample_wide →
       v = (parity 0 * parity 0
            * (numer_prod sample_wide sample_wide_x [0; 1]%nat
               * occ_minor sample_wide sample_wide_x 2 [0; 1]%nat 0 0
               / (denom_prod sample_wide sample_wide_x [0; 1]%nat
                  * occ_det sample_wide sample_wide_x [0; 1]%nat 2)))%R)
    ∧ (_numerator sample_wide ≤ 2 < 2 * _numerator sample_wide →
       v = (parity 0 * - parity 0
            * (numer_prod sample_wide sample_wide_x [0; 1]%nat
               * occ_minor sample_wide sample_wide_x 2 [0; 1]%nat 0 0
               / (denom_prod sample_wide sample_wide_x [0; 1]%nat
                  * occ_det sample_wide sample_wide_x [0; 1]%nat 2)))%R)
    ∧ (2 * _numerator sample_wide ≤ 2 →
       v = 0%R
       ∧ ((numer_prod sample_wide sample_wide_x [0; 1]%nat
           * occ_minor sample_wide sample_wide_x 2 [0; 1]%nat 0 0
           / (denom_prod sample_wide sample_wide_x [0; 1]%nat
              * occ_det sample_wide sample_wide_x [0; 1]%nat 2))%R ≠ 0%R →
          v ≠ (parity 0 * - parity 0
               * (numer_prod sample_wide sample_wide_x [0; 1]%nat
                  * occ_minor sample_wide sample_wide_x 2 [0; 1]%nat 0 0
                  / (denom_prod sample_wide sample_wide_x [0; 1]%nat
                     * occ_det sample_wide sample_wide_x [0; 1]%nat 2)))%R)).
Proof.
  apply (deriv_sign_convention sample_wide sample_wide_x (OccsStr "S") [[0; 1]]
           0 [0; 1] 2 0 0 0).
  - apply wf_engine_engine; [by exists 2 | compute_done].
  - cbn. lia.
  - cbn. lia.
  - reflexivity.
  - apply selects_S.
  - intros a [=].
  - reflexivity.
  - reflexivity.
  - cbn. lia.
  - cbn. lia.
Defined.

(** *** The overlap as a function of one parameter *)

Lemma overlap_value_1x1 (n_val d_val : R) :
  overlap_value (engine 1 1 1 1 [[0]]) (OccsArray [[0]]) 0 [n_val; d_val] = (n_val / d_val)%R.
Proof.
  unfold overlap_value.
  rewrite (compute_overlap_fmap _ _ _ [[0]]);
    [|apply wf_engine_engine; [by exists 1 | compute_done]
     |reflexivity|apply selects_array|compute_done].
  cbn. unfold spec_overlap, numer_prod, denom_prod, occ_det, occ_matrix, param_entry.
  cbn. unfold Rsum, parity, Rdiv. cbn. f_equal; [|f_equal]; ring.
Qed.

(** The derivatives of [n / d] with respect to [n] and to [d]. *)
Lemma partial_derivatives_1x1 (n_val d_val : R) :
  d_val ≠ 0%R →
  is_partial_derivative (engine 1 1 1 1 [[0]]) (OccsArray [[0]]) 0 0 [n_val; d_val]
    (1 / d_val)%R
  ∧ is_partial_derivative (engine 1 1 1 1 [[0]]) (OccsArray [[0]]) 0 1 [n_val; d_val]
      (- n_val / d_val ^ 2)%R.
Proof.
  intros Hd. unfold is_partial_derivative, perturb. split.
  - apply derivable_pt_lim_ext with (f := ((id + fct_cte n_val) / fct_cte d_val)%F).
    { intros h. cbn. by rewrite overlap_value_1x1. }
    replace (1 / d_val)%R
      with (((1 + 0) * fct_cte d_val 0 - 0 * (id + fct_cte n_val)%F 0)
            / Rsqr (fct_cte d_val 0))%R
      by (unfold fct_cte, plus_fct, id, Rsqr; by field).
    apply derivable_pt_lim_div; [|apply derivable_pt_lim_const|done].
    apply derivable_pt_lim_plus; [apply derivable_pt_lim_id|apply derivable_pt_lim_const].
  - apply derivable_pt_lim_ext with (f := (fct_cte n_val / (id + fct_cte d_val))%F).
    { intros h. cbn. by rewrite overlap_value_1x1. }
    replace (- n_val / d_val ^ 2)%R
      with ((0 * (id + fct_cte d_val)%F 0 - (1 + 0) * fct_cte n_val 0)
            / Rsqr ((id + fct_cte d_val)%F 0))%R
      by (unfold fct_cte, plus_fct, id, Rsqr; by field).
    apply derivable_pt_lim_div; [apply derivable_pt_lim_const| |].
    + apply derivable_pt_lim_plus; [apply derivable_pt_lim_id|apply derivable_pt_lim_const].
    + unfold plus_fct, id, fct_cte. by rewrite Rplus_0_l.
Qed.

Lemma partial_derivative_1x1_numerator :
  is_partial_derivative (engine 1 1 1 1 [[0]]) (OccsArray [[0]]) 0 0 [1; 2]%R (1 / 2)%R.
Proof. apply (partial_derivatives_1x1 1 2). lra. Qed.

Lemma partial_derivative_1x1_denominator :
  is_partial_derivative (engine 1 1 1 1 [[0]]) (OccsArray [[0]]) 0 1 [1; 2]%R (- 1 / 2 ^ 2)%R.
Proof. apply (partial_derivatives_1x1 1 2). lra. Qed.

(** C1. For one numerator and one denominator matrix over one orbital, with
    parameters 1 and 2, the overlap 1/2 has partial derivative 1/2 with
    respect to the numerator parameter, while [compute_overlap_deriv] stores
    1.0 there, which is not the partial derivative. *)
Theorem deriv_entry_is_not_the_partial_derivative :
  is_partial_derivative (engine 1 1 1 1 [[0]]) (OccsArray [[0]]) 0 0 [1; 2]%R (1 / 2)%R
  ∧ fst (compute_overlap_deriv [1; 2]%R (OccsArray [[0]]) (engine 1 1 1 1 [[0]]))
    = Ok [[1; 1]%R]
  ∧ ¬ is_partial_derivative (engine 1 1 1 1 [[0]]) (OccsArray [[0]]) 0 0 [1; 2]%R 1%R.
Proof.
  split_and!; [apply partial_derivative_1x1_numerator|reflexivity|].
  intros Hone.
  pose proof (uniqueness_limite _ _ _ _ partial_derivative_1x1_numerator Hone). lra.
Qed.

(** C6. One numerator and one denominator matrix, one orbital: the method
    stores 1.0 at both entries of the occupied row, whatever the two
    parameters are; for the parameters 1 and 2 the two partial derivatives
    are 1/2 and -1/4. *)
Theorem degenerate_entries_are_one (n_val d_val : R) :
  fst (compute_overlap_deriv [n_val; d_val] (OccsArray [[0]]) (engine 1 1 1 1 [[0]]))
    = Ok [[1; 1]%R]
  ∧ is_partial_derivative (engine 1 1 1 1 [[0]]) (OccsArray [[0]]) 0 0 [1; 2]%R (1 / 2)%R
  ∧ is_partial_derivative (engine 1 1 1 1 [[0]]) (OccsArray [[0]]) 0 1 [1; 2]%R
      (- 1 / 2 ^ 2)%R
  ∧ (1 ≠ 1 / 2)%R ∧ (1 ≠ - 1 / 2 ^ 2)%R.
Proof.
  split_and!; [reflexivity| | |lra..].
  - apply partial_derivative_1x1_numerator.
  - apply partial_derivative_1x1_denominator.
Qed.

(** * Further properties *)

(** ** Batches: splitting and selecting *)

Lemma mapM_app {A B} (f : A → result B) (l1 l2 : list A) :
  mapM f (l1 ++ l2) = y1 ← mapM f l1; y2 ← mapM f l2; mret (y1 ++ y2).
Proof.
  induction l1 as [|a l1 IH]; cbn.
  - by destruct (mapM f l2).
  - destruct (f a) as [b|]; cbn; [|done]. rewrite IH.
    destruct (mapM f l1) as [y1|]; cbn; [|done].
    by destruct (mapM f l2).
Qed.

Lemma mapM_take {A B} (f : A → result B) (l : list A) y n :
  mapM f l = Ok y → mapM f (take n l) = Ok (take n y).
Proof.
  revert y n. induction l as [|a l IH]; intros y n; cbn.
  - intros [= <-]. by destruct n.
  - destruct (f a) as [b|] eqn:Hb; cbn; [|done].
    destruct (mapM f l) as [y'|] eqn:Hy'; cbn; [|done].
    intros [= <-]. destruct n as [|n]; [done|]. cbn.
    rewrite Hb. cbn. by rewrite (IH y' n).
Qed.

(** X1. A call on the concatenation of two arrays of configurations behaves
    as the call on the first array followed by the call on the second one:
    same exception if one of them raises, and otherwise the two results
    one after the other.  This holds for both methods, whatever the engine,
    the parameter vector and the arrays are. *)
Theorem methods_split_over_batches self x B1 B2 :
  fst (compute_overlap x (OccsArray (B1 ++ B2)) self)
    = (y1 ← fst (compute_overlap x (OccsArray B1) self);
       y2 ← fst (compute_overlap x (OccsArray B2) self);
       mret (y1 ++ y2))
  ∧ fst (compute_overlap_deriv x (OccsArray (B1 ++ B2)) self)
    = (y1 ← fst (compute_overlap_deriv x (OccsArray B1) self);
       y2 ← fst (compute_overlap_deriv x (OccsArray B2) self);
       mret (y1 ++ y2)).
Proof.
  unfold compute_overlap, compute_overlap_deriv. cbn.
  destruct (reshape3 _ _ _ x) as [x_mats|]; cbn; [|done].
  split.
  - apply mapM_app.
  - rewrite !zip_replicate_l, fmap_app. apply mapM_app.
Qed.

(** X2. The selectors stand for the stored arrays: "P" and "S" give what the
    explicit arrays [_pspace] and [_sspace] give.  When the projection space
    is the prefix of length [_nproj] of the full space and the call on "S"
    returns, the call on "P" returns the first [_nproj] entries (rows) of
    that result.  Both hold for both methods. *)
Theorem selectors_and_prefix self x :
  compute_overlap x (OccsStr "P") self = compute_overlap x (OccsArray (_pspace self)) self
  ∧ compute_overlap x (OccsStr "S") self = compute_overlap x (OccsArray (_sspace self)) self
  ∧ compute_overlap_deriv x (OccsStr "P") self
    = compute_overlap_deriv x (OccsArray (_pspace self)) self
  ∧ compute_overlap_deriv x (OccsStr "S") self
    = compute_overlap_deriv x (OccsArray (_sspace self)) self
  ∧ (_pspace self = take (_nproj self) (_sspace self) →
     (∀ y, fst (compute_overlap x (OccsStr "S") self) = Ok y →
           fst (compute_overlap x (OccsStr "P") self) = Ok (take (_nproj self) y))
     ∧ (∀ y, fst (compute_overlap_deriv x (OccsStr "S") self) = Ok y →
             fst (compute_overlap_deriv x (OccsStr "P") self) = Ok (take (_nproj self) y))).
Proof.
  split_and!; [done..|]. intros Hp.
  unfold compute_overlap, compute_overlap_deriv. cbn. rewrite Hp.
  destruct (reshape3 _ _ _ x) as [x_mats|]; cbn; [|by split].
  split; intros y Hy.
  - by apply mapM_take.
  - rewrite zip_replicate_l in *. rewrite fmap_take. by apply mapM_take.
Qed.

Lemma selectors_and_prefix_witness :
  fst (compute_overlap [1; 2; 3; 4]%R (OccsStr "P") (engine 2 1 1 1 [[0]; [1]]))
    = Ok (take 2 [(1 * 1 * 1 + 0) * 1 / ((1 * 3 * 1 + 0) * 1);
                  (1 * 2 * 1 + 0) * 1 / ((1 * 4 * 1 + 0) * 1)]%R).
Proof.
  apply (selectors_and_prefix (engine 2 1 1 1 [[0]; [1]]) [1; 2; 3; 4]%R).
  - reflexivity.
  - reflexivity.
Defined.

(** ** compute_overlap on arbitrary arrays *)

Lemma occ_dets_shaped self x occs k n :
  k + n ≤ _nmatrices self →
  shaped_config (wfn_nbasis (_wfn self)) (nocc_up (_wfn self)) occs →
  occ_dets (nocc_up (_wfn self)) occs (take n (drop k (param_mats self x)))
  = Ok (occ_det self x occs <$> seq k n).
Proof.
  intros Hkn (Hlen & Hlt). unfold param_mats.
  rewrite <- fmap_drop, <- fmap_take, drop_seq, take_seq. cbn.
  replace (n `min` (_nmatrices self - k)) with n by lia.
  unfold occ_dets. apply mapM_fmap_pure, Forall_forall.
  intros m [_ Hm]%elem_of_seq. cbn.
  rewrite take_rows_fmap_seq by done. cbn.
  unfold np_linalg_det. rewrite decide_True; [done|].
  by rewrite length_fmap.
Qed.

Lemma overlap_of_shaped self x occs :
  wf_engine self →
  shaped_config (wfn_nbasis (_wfn self)) (nocc_up (_wfn self)) occs →
  overlap_of (nocc_up (_wfn self)) (take (_numerator self) (param_mats self x))
    (drop (_numerator self) (param_mats self x)) occs
  = Ok (spec_overlap self x occs).
Proof.
  intros Hwf Hocc. unfold overlap_of.
  pose proof (wf_nmatrices _ Hwf) as Hn.
  rewrite <- (drop_0 (param_mats self x)) at 1.
  rewrite occ_dets_shaped by (done || lia). cbn.
  rewrite <- (take_ge (drop _ _) (_denominator self))
    by (rewrite length_drop, length_param_mats; lia).
  rewrite occ_dets_shaped by (done || lia). done.
Qed.

Lemma take_rows_out_of_range (mat : matrix) rows r :
  r ∈ rows → length mat ≤ r →
  take_rows mat rows = Raise (IndexError "index out of bounds").
Proof.
  intros Hin Hr. unfold take_rows.
  induction rows as [|a rows IH]; [by apply elem_of_nil in Hin|].
  cbn. destruct (mat !! a) as [row|] eqn:Ha.
  - rewrite (getitem_Ok _ _ _ Ha). cbn.
    apply elem_of_cons in Hin as [->|Hin].
    + apply lookup_lt_Some in Ha. lia.
    + by rewrite IH.
  - by rewrite getitem_Raise by (by apply lookup_ge_None).
Qed.

Lemma occ_dets_cons_raise nocc occs mat mats e :
  take_rows mat occs ≫= np_linalg_det nocc = Raise e →
  occ_dets nocc occs (mat :: mats) = Raise e.
Proof.
  intros He. unfold occ_dets. cbn.
  destruct (take_rows mat occs) as [sub|]; cbn in *; [by rewrite He|].
  by injection He as ->.
Qed.

(** [overlap_of] raises what the restriction of the first matrix raises, a
    numerator matrix if there is one and a denominator matrix otherwise. *)
Lemma overlap_of_raise self x occs e :
  0 < _nmatrices self →
  (∀ mat, mat ∈ param_mats self x →
          take_rows mat occs ≫= np_linalg_det (nocc_up (_wfn self)) = Raise e) →
  overlap_of (nocc_up (_wfn self)) (take (_numerator self) (param_mats self x))
    (drop (_numerator self) (param_mats self x)) occs = Raise e.
Proof.
  intros Hnm Hraise. pose proof (length_param_mats self x) as Hlen.
  destruct (param_mats self x) as [|mat mats]; [cbn in Hlen; lia|].
  assert (∀ l, occ_dets (nocc_up (_wfn self)) occs (mat :: l) = Raise e) as Hcons.
  { intros l. apply occ_dets_cons_raise, Hraise. by left. }
  unfold overlap_of. destruct (_numerator self) as [|N]; cbn [take drop]; by rewrite Hcons.
Qed.

Lemma length_param_mat self x mat :
  mat ∈ param_mats self x → length mat = wfn_nbasis (_wfn self).
Proof.
  unfold param_mats. intros (m & -> & _)%list_elem_of_fmap.
  by rewrite length_fmap, length_seq.
Qed.

Lemma param_mat_rows self x mat rows :
  mat ∈ param_mats self x →
  Forall (λ r, r < wfn_nbasis (_wfn self)) rows →
  ∃ sub, take_rows mat rows = Ok sub ∧ length sub = length rows.
Proof.
  unfold param_mats. intros (m & -> & _)%list_elem_of_fmap Hrows.
  rewrite take_rows_fmap_seq by done. eexists. split; [done|by rewrite length_fmap].
Qed.

Lemma overlap_of_out_of_range self x occs r :
  0 < _nmatrices self →
  r ∈ occs → wfn_nbasis (_wfn self) ≤ r →
  overlap_of (nocc_up (_wfn self)) (take (_numerator self) (param_mats self x))
    (drop (_numerator self) (param_mats self x)) occs
  = Raise (IndexError "index out of bounds").
Proof.
  intros Hnm Hin Hr. apply overlap_of_raise; [done|].
  intros mat Hmat. rewrite (take_rows_out_of_range mat occs r); [done..|].
  by rewrite (length_param_mat self x).
Qed.

Lemma overlap_of_not_square self x occs :
  0 < _nmatrices self →
  Forall (λ r, r < wfn_nbasis (_wfn self)) occs →
  length occs ≠ nocc_up (_wfn self) →
  overlap_of (nocc_up (_wfn self)) (take (_numerator self) (param_mats self x))
    (drop (_numerator self) (param_mats self x)) occs
  = Raise (LinAlgError "Last 2 dimensions of the array must be square").
Proof.
  intros Hnm Hlt Hlen. apply overlap_of_raise; [done|].
  intros mat Hmat. destruct (param_mat_rows self x mat occs Hmat Hlt) as (sub & -> & Hsub).
  cbn. unfold np_linalg_det. rewrite decide_False; [done|congruence].
Qed.

Lemma overlap_of_Ok_shaped self x occs v :
  0 < _nmatrices self →
  overlap_of (nocc_up (_wfn self)) (take (_numerator self) (param_mats self x))
    (drop (_numerator self) (param_mats self x)) occs = Ok v →
  shaped_config (wfn_nbasis (_wfn self)) (nocc_up (_wfn self)) occs.
Proof.
  intros Hnm Hv.
  destruct (decide (Forall (λ r, r < wfn_nbasis (_wfn self)) occs)) as [Hlt|Hlt].
  - destruct (decide (length occs = nocc_up (_wfn self))) as [Hlen|Hlen]; [done|].
    by rewrite overlap_of_not_square in Hv.
  - apply not_Forall_Exists in Hlt; [|apply _].
    apply Exists_exists in Hlt as (r & Hin & Hr). cbn in Hr.
    rewrite (overlap_of_out_of_range self x occs r) in Hv; [done..|lia].
Qed.

(** On the arrays of the model (indices are natural numbers),
    [compute_overlap] returns exactly on the parameter vectors of length
    nparam-1 and the rows of nocc indices below nbasis. *)
Lemma compute_overlap_Ok_iff_shaped self x B y :
  wf_engine self →
  0 < _nmatrices self →
  fst (compute_overlap x (OccsArray B) self) = Ok y ↔
    length x = _nparam self - 1
    ∧ Forall (shaped_config (wfn_nbasis (_wfn self)) (nocc_up (_wfn self))) B
    ∧ y = spec_overlap self x <$> B.
Proof.
  intros Hwf Hnm. unfold compute_overlap. cbn.
  destruct (decide (length x = _nparam self - 1)) as [Hx|Hx].
  2:{ rewrite reshape3_Raise by (by rewrite <- wf_nparam_pred).
      split; [done|]. by intros (? & _). }
  rewrite reshape3_param_mats by (by rewrite <- wf_nparam_pred). cbn.
  split.
  - intros Hy.
    assert (Forall (shaped_config (wfn_nbasis (_wfn self)) (nocc_up (_wfn self))) B) as HB.
    { revert y Hy. induction B as [|occs B IH]; intros y; [done|]. cbn.
      destruct (overlap_of _ _ _ occs) as [v|] eqn:Hv; cbn; [|done].
      destruct (mapM _ B) as [y'|]; cbn; [|done]. intros _.
      constructor; [by eapply overlap_of_Ok_shaped|by eapply IH]. }
    split_and!; [done..|].
    rewrite (mapM_pure _ (spec_overlap self x)) in Hy; [by injection Hy|].
    eapply Forall_impl; [done|]. intros occs Hocc. by apply overlap_of_shaped.
  - intros (_ & HB & ->). apply mapM_pure.
    eapply Forall_impl; [done|]. intros occs Hocc. by apply overlap_of_shaped.
Qed.

Lemma shaped_config_to_nat nbasis nocc (row : list Z) :
  Forall (λ i, (0 ≤ i)%Z) row →
  shaped_config nbasis nocc (Z.to_nat <$> row)
  ↔ length row = nocc ∧ Forall (λ i, (i < Z.of_nat nbasis)%Z) row.
Proof.
  intros Hnn. unfold shaped_config. rewrite length_fmap, Forall_fmap.
  rewrite !Forall_forall in *.
  split; intros [Hlen Hlt]; (split; [done|]); intros i Hi;
    specialize (Hlt i Hi); specialize (Hnn i Hi); cbn in *; lia.
Qed.

(** X3. An explicit integer array without negative entries is passed as the
    array of its entries (negative entries, which numpy counts from the end
    of the axis, are outside this statement).  When there is at least one
    matrix, [compute_overlap] returns on such an array exactly when the
    parameter vector has length nparam-1 and every row of the array holds
    nocc indices below nbasis (in any order, repeated or not); what it
    returns is then the determinant ratio of each row. *)
Theorem compute_overlap_returns_iff self x (A : list (list Z)) y :
  wf_engine self →
  0 < _nmatrices self →
  Forall (Forall (λ i, (0 ≤ i)%Z)) A →
  fst (compute_overlap x (OccsArray (index_rows A)) self) = Ok y ↔
    length x = _nparam self - 1
    ∧ Forall (λ row, length row = nocc_up (_wfn self)
                     ∧ Forall (λ i, (i < Z.of_nat (wfn_nbasis (_wfn self)))%Z) row) A
    ∧ y = spec_overlap self x <$> index_rows A.
Proof.
  intros Hwf Hnm Hnn.
  rewrite (compute_overlap_Ok_iff_shaped self x _ y Hwf Hnm).
  assert (Forall (shaped_config (wfn_nbasis (_wfn self)) (nocc_up (_wfn self)))
            (index_rows A)
          ↔ Forall (λ row, length row = nocc_up (_wfn self)
                           ∧ Forall (λ i, (i < Z.of_nat (wfn_nbasis (_wfn self)))%Z) row) A) as Hrows.
  { unfold index_rows. rewrite Forall_fmap. rewrite !Forall_forall in *.
    split; intros Hall row Hrow; specialize (Hall row Hrow); cbn in *;
      by apply (shaped_config_to_nat _ _ row (Hnn row Hrow)). }
  by rewrite Hrows.
Qed.

Lemma compute_overlap_returns_iff_witness :
  fst (compute_overlap [1; 2; 3; 4]%R (OccsArray (index_rows [[1]; [1]; [0]]%Z))
         (engine 2 1 1 1 [[0]; [1]]))
    = Ok (spec_overlap (engine 2 1 1 1 [[0]; [1]]) [1; 2; 3; 4]%R
            <$> index_rows [[1]; [1]; [0]]%Z).
Proof.
  apply (compute_overlap_returns_iff (engine 2 1 1 1 [[0]; [1]]) [1; 2; 3; 4]%R
           [[1]; [1]; [0]]%Z).
  - apply wf_engine_engine; [by exists 1 | compute_done].
  - cbn. lia.
  - repeat constructor; lia.
  - split_and!; [reflexivity| |reflexivity].
    repeat constructor; cbn; lia.
Defined.



(** ** One occupied orbital *)

Lemma det_1x1 (a : R) : det 1 [[a]] = a.
Proof. cbn. unfold Rsum, parity. cbn. ring. Qed.

Lemma occ_det_single_orbital self x r m :
  nocc_up (_wfn self) = 1 →
  occ_det self x [r] m = orbital_param self x r m.
Proof.
  intros Hno. unfold occ_det, occ_matrix, param_entry, orbital_param.
  rewrite Hno. cbn [seq fmap list_fmap].
  rewrite det_1x1. f_equal. lia.
Qed.

(** X5. With one occupied orbital the overlap of the configuration [r] is
    the product of the parameters of row r of the numerator matrices over
    the product of those of the denominator matrices; for one matrix of each
    kind it is the ratio of the two entries. *)
Theorem single_orbital_overlap self x occs_array B k r :
  wf_engine self →
  nocc_up (_wfn self) = 1 →
  length x = _nparam self - 1 →
  selects self occs_array B →
  (∀ a, occs_array = OccsArray a →
        Forall (valid_config (wfn_nbasis (_wfn self)) (nocc_up (_wfn self))) a) →
  B !! k = Some [r] →
  ∃ y, fst (compute_overlap x occs_array self) = Ok y
       ∧ y !! k =
           Some (np_prod (orbital_param self x r <$> seq 0 (_numerator self))
                 / np_prod (orbital_param self x r
                              <$> seq (_numerator self) (_denominator self)))%R.
Proof.
  intros Hwf Hno Hx Hsel Harr Hk.
  pose proof (selects_valid _ _ _ Hwf Hsel Harr) as HB.
  rewrite (compute_overlap_fmap _ _ _ _ Hwf Hx Hsel HB).
  eexists. split; [done|]. rewrite list_lookup_fmap, Hk. cbn.
  assert (∀ l : list nat, occ_det self x [r] <$> l = orbital_param self x r <$> l) as Hdet.
  { intros l. apply list_fmap_ext. intros _ m _. by apply occ_det_single_orbital. }
  unfold spec_overlap, numer_prod, denom_prod. by rewrite !Hdet.
Qed.

Lemma single_orbital_overlap_witness :
  ∃ y, fst (compute_overlap sample_single_x (OccsStr "S") sample_single) = Ok y
       ∧ y !! 1 =
           Some (np_prod (orbital_param sample_single sample_single_x 1 <$> seq 0 1)
                 / np_prod (orbital_param sample_single sample_single_x 1 <$> seq 1 1))%R.
Proof.
  apply (single_orbital_overlap sample_single sample_single_x (OccsStr "S") [[0]; [1]] 1 1).
  - apply wf_engine_engine; [by exists 1 | compute_done].
  - reflexivity.
  - reflexivity.
  - apply selects_S.
  - intros a [=].
  - reflexivity.
Defined.

(** ** compute_overlap_deriv: when it returns, and what *)

Lemma deriv_row_no_orbital self x y_row occs :
  nocc_up (_wfn self) = 0 →
  valid_config (wfn_nbasis (_wfn self)) (nocc_up (_wfn self)) occs →
  deriv_row self (param_mats self x) (seq 0 (nocc_up (_wfn self))) y_row occs = Ok y_row.
Proof.
  intros Hno Hocc. unfold deriv_row.
  rewrite occ_dets_all by done. cbn. rewrite Hno, Nat.mul_0_r, Nat.mul_0_r.
  unfold range. replace (1 + 0 - 1) with 0 by lia. done.
Qed.

Lemma compute_overlap_deriv_no_orbital self x occs_array B :
  wf_engine self →
  nocc_up (_wfn self) = 0 →
  length x = _nparam self - 1 →
  selects self occs_array B →
  Forall (valid_config (wfn_nbasis (_wfn self)) (nocc_up (_wfn self))) B →
  fst (compute_overlap_deriv x occs_array self)
  = Ok (replicate (length B) (replicate (_nparam self - 1) 0%R)).
Proof.
  intros Hwf Hno Hx Hsel HB. unfold compute_overlap_deriv. cbn.
  rewrite (resolve_selects _ _ _ Hsel). cbn.
  rewrite reshape3_param_mats by (by rewrite <- wf_nparam_pred). cbn.
  rewrite (mapM_pure _ fst).
  - f_equal. apply fst_zip. by rewrite length_replicate.
  - apply Forall_forall. intros [y_row occs] Hin%elem_of_zip_r.
    rewrite Forall_forall in HB. by apply deriv_row_no_orbital, HB.
Qed.

(** X6. For a parameter vector of length nparam-1 and a batch of
    configurations, [compute_overlap_deriv] returns exactly when there are
    at most as many numerator as denominator matrices, or no occupied
    orbital, or no configuration; it then returns one row of nparam-1
    entries per configuration, and otherwise raises an IndexError. *)
Theorem compute_overlap_deriv_returns_iff self x occs_array B :
  wf_engine self →
  length x = _nparam self - 1 →
  selects self occs_array B →
  (∀ a, occs_array = OccsArray a →
        Forall (valid_config (wfn_nbasis (_wfn self)) (nocc_up (_wfn self))) a) →
  ((∃ y, fst (compute_overlap_deriv x occs_array self) = Ok y) ↔
     _numerator self ≤ _denominator self ∨ nocc_up (_wfn self) = 0 ∨ B = [])
  ∧ (∀ y, fst (compute_overlap_deriv x occs_array self) = Ok y →
          length y = length B ∧ Forall (λ row, length row = _nparam self - 1) y)
  ∧ (¬ (_numerator self ≤ _denominator self ∨ nocc_up (_wfn self) = 0 ∨ B = []) →
     fst (compute_overlap_deriv x occs_array self) = Raise (IndexError "index out of bounds")).
Proof.
  intros Hwf Hx Hsel Harr.
  pose proof (selects_valid _ _ _ Hwf Hsel Harr) as HB.
  assert (¬ (_numerator self ≤ _denominator self ∨ nocc_up (_wfn self) = 0 ∨ B = []) →
          fst (compute_overlap_deriv x occs_array self)
          = Raise (IndexError "index out of bounds")) as Hraise.
  { intros Hnot. apply compute_overlap_deriv_raises with B; try done.
    - lia.
    - lia.
    - intros ->. apply Hnot. by right; right. }
  assert (_numerator self ≤ _denominator self ∨ nocc_up (_wfn self) = 0 ∨ B = [] →
          ∃ y, fst (compute_overlap_deriv x occs_array self) = Ok y
               ∧ length y = length B
               ∧ Forall (λ row, length row = _nparam self - 1) y) as Hok.
  { intros [HND|[Hno|HBnil]]; [| |subst B].
    - rewrite (compute_overlap_deriv_fmap _ _ _ _ Hwf HND Hx Hsel HB). cbn.
      eexists. split_and!; [done|by rewrite length_fmap|].
      apply Forall_fmap, Forall_true. intros occs. cbn. unfold deriv_row_result.
      by rewrite !length_foldl_write_entry, length_replicate.
    - rewrite (compute_overlap_deriv_no_orbital _ _ _ _ Hwf Hno Hx Hsel HB).
      eexists. split_and!; [done|by rewrite length_replicate|].
      apply Forall_replicate. by rewrite length_replicate.
    - unfold compute_overlap_deriv. cbn. rewrite (resolve_selects _ _ _ Hsel). cbn.
      rewrite reshape3_param_mats by (by rewrite <- wf_nparam_pred). cbn.
      by eexists. }
  split_and!; [|  |done].
  - split.
    + intros [y Hy].
      destruct (decide (_numerator self ≤ _denominator self ∨ nocc_up (_wfn self) = 0
                        ∨ B = [])) as [|Hnot]; [done|].
      by rewrite (Hraise Hnot) in Hy.
    + intros Hcond. destruct (Hok Hcond) as (y & Hy & _). by exists y.
  - intros y Hy.
    destruct (decide (_numerator self ≤ _denominator self ∨ nocc_up (_wfn self) = 0
                      ∨ B = [])) as [Hcond|Hnot].
    + destruct (Hok Hcond) as (y' & Hy' & Hshape). by replace y with y' by congruence.
    + by rewrite (Hraise Hnot) in Hy.
Qed.

Lemma compute_overlap_deriv_returns_iff_witness :
  ((∃ y, fst (compute_overlap_deriv sample_single_x (OccsStr "S") sample_single) = Ok y) ↔
     1 ≤ 1 ∨ 1 = 0 ∨ [[0]; [1]] = [])
  ∧ (∀ y, fst (compute_overlap_deriv sample_single_x (OccsStr "S") sample_single) = Ok y →
          length y = 2 ∧ Forall (λ row, length row = 4) y)
  ∧ (¬ (1 ≤ 1 ∨ 1 = 0 ∨ [[0]; [1]] = []) →
     fst (compute_overlap_deriv sample_single_x (OccsStr "S") sample_single)
     = Raise (IndexError "index out of bounds")).
Proof.
  apply (compute_overlap_deriv_returns_iff sample_single sample_single_x (OccsStr "S")
           [[0]; [1]]).
  - apply wf_engine_engine; [by exists 1 | compute_done].
  - reflexivity.
  - apply selects_S.
  - intros a [=].
Defined.

(** X7. When there are at least as many denominator as numerator matrices,
    [compute_overlap_deriv] returns, and the matrix it returns is the table
    of [deriv_entry] over the configurations and the nparam-1 parameters: 1.0
    or the signed, scaled minor where one of the two loops reaches an
    occupied row, and 0.0 everywhere else. *)
Theorem deriv_matrix_closed_form self x occs_array B :
  wf_engine self →
  _numerator self ≤ _denominator self →
  length x = _nparam self - 1 →
  selects self occs_array B →
  (∀ a, occs_array = OccsArray a →
        Forall (valid_config (wfn_nbasis (_wfn self)) (nocc_up (_wfn self))) a) →
  fst (compute_overlap_deriv x occs_array self)
  = Ok ((λ occs, deriv_entry self x occs <$> seq 0 (_nparam self - 1)) <$> B).
Proof.
  intros Hwf HND Hx Hsel Harr.
  pose proof (selects_valid _ _ _ Hwf Hsel Harr) as HB.
  rewrite (compute_overlap_deriv_fmap _ _ _ _ Hwf HND Hx Hsel HB). cbn. f_equal.
  apply list_fmap_ext. intros _ occs _. apply list_eq. intros i.
  destruct (decide (i < _nparam self - 1)) as [Hi|Hi].
  - rewrite deriv_row_result_lookup by done.
    by rewrite list_lookup_fmap, lookup_seq_lt.
  - rewrite !lookup_ge_None_2; [done|..].
    + rewrite length_fmap, length_seq. lia.
    + unfold deriv_row_result.
      rewrite !length_foldl_write_entry, length_replicate. lia.
Qed.

Lemma deriv_matrix_closed_form_witness :
  fst (compute_overlap_deriv sample_x (OccsStr "S") sample_engine)
  = Ok ((λ occs, deriv_entry sample_engine sample_x occs <$> seq 0 8) <$> [[0; 1]]).
Proof.
  apply (deriv_matrix_closed_form sample_engine sample_x (OccsStr "S") [[0; 1]]).
  - apply wf_engine_engine; [by exists 1 | compute_done].
  - reflexivity.
  - reflexivity.
  - apply selects_S.
  - intros a [=].
Defined.

(** X8. In the matrix that [compute_overlap_deriv] returns (at most as many
    numerator as denominator matrices), an entry is 0.0 whenever its row is
    not occupied in the configuration, and also whenever its matrix has
    index 2 * numerator or more: the second loop stops there, so that with
    fewer numerator than denominator matrices the last ones are never
    written. *)
Theorem deriv_entries_left_zero self x occs_array B k occs m r c :
  wf_engine self →
  _numerator self ≤ _denominator self →
  length x = _nparam self - 1 →
  selects self occs_array B →
  (∀ a, occs_array = OccsArray a →
        Forall (valid_config (wfn_nbasis (_wfn self)) (nocc_up (_wfn self))) a) →
  B !! k = Some occs →
  m < _nmatrices self →
  r < wfn_nbasis (_wfn self) →
  c < nocc_up (_wfn self) →
  r ∉ occs ∨ 2 * _numerator self ≤ m →
  ∃ y row, fst (compute_overlap_deriv x occs_array self) = Ok y
           ∧ y !! k = Some row
           ∧ row !! param_index self m r c = Some 0%R.
Proof.
  intros Hwf HND Hx Hsel Harr Hk Hm Hr Hc Hcase.
  destruct (compute_overlap_deriv_entries self x occs_array B) as (y & Hy & _ & Hrows);
    [done..|].
  destruct (Hrows k occs Hk) as (row & Hrow & _ & Hentries).
  exists y, row. split_and!; [done..|].
  rewrite Hentries; [by rewrite deriv_entry_zero|].
  rewrite wf_nparam_pred by done. by apply param_index_lt.
Qed.

Lemma deriv_entries_left_zero_witness :
  ∃ y row, fst (compute_overlap_deriv sample_single_x (OccsStr "S") sample_single) = Ok y
           ∧ y !! 0 = Some row
           ∧ row !! param_index sample_single 1 1 0 = Some 0%R.
Proof.
  apply (deriv_entries_left_zero sample_single sample_single_x (OccsStr "S") [[0]; [1]]
           0 [0] 1 1 0).
  - apply wf_engine_engine; [by exists 1 | compute_done].
  - reflexivity.
  - reflexivity.
  - apply selects_S.
  - intros a [=].
  - reflexivity.
  - cbn. lia.
  - cbn. lia.
  - cbn. lia.
  - left. compute_done.
Defined.

(** ** The constructor *)


Lemma check_nmatrices_Ok n : check_nmatrices n = Ok () → Nat.Even n.
Proof.
  unfold check_nmatrices. case_decide as Hmod; [done|]. intros _.
  exists (n / 2). pose proof (Nat.div_mod_eq n 2). lia.
Qed.

Lemma check_nmatrices_Raise n e : check_nmatrices n = Raise e → InvalidArgument e.
Proof.
  unfold check_nmatrices. case_decide; [|done]. intros [= <-]. constructor.
Qed.

Lemma handle_wfn_Raise ham nocc wfn e : handle_wfn ham nocc wfn = Raise e → InvalidArgument e.
Proof.
  destruct wfn as [|w|ty]; cbn; [done| |].
  - case_decide; [|done]. intros [= <-]. constructor.
  - intros [= <-]. constructor.
Qed.

Lemma handle_wfn_Ok_inv ham nocc wfn w :
  handle_wfn ham nocc wfn = Ok w →
  nocc_up w = nocc ∧ nocc_dn w = nocc
  ∧ (∀ w', wfn = WfnObj w' → w' = w)
  ∧ (∀ ty, wfn ≠ WfnOther ty).
Proof.
  destruct wfn as [|w'|ty]; cbn.
  - intros [= <-]. by split_and!.
  - case_decide as Hne; [done|]. intros [= <-].
    split_and!; [| |congruence|done].
    + destruct (decide (nocc_up w' = nocc)); [done|]. destruct Hne. by left.
    + destruct (decide (nocc_dn w' = nocc)); [done|]. destruct Hne. by right.
  - done.
Qed.

(** X10. Whatever the base-class constructor does: an engine is returned
    only for a Hamiltonian, an even matrix count and a wavefunction that is
    absent or has both occupations equal to nocc, and it stores the counts it
    was given; for any other arguments the constructor raises one of its own
    four invalid-argument errors. *)
Theorem constructor_validates_arguments {kwargs} (FanCI_init : hamiltonian → doci_wfn
    → nat → nat → kwargs → result FanCI) ham nocc numerator denominator nproj wfn kw :
  (∀ self,
     DetRatio_init FanCI_init ham nocc numerator denominator nproj wfn kw = Ok self →
     (∃ h, ham = HamObj h)
     ∧ Nat.Even (numerator + denominator)
     ∧ (∀ w, wfn = WfnObj w → nocc_up w = nocc ∧ nocc_dn w = nocc)
     ∧ (∀ ty, wfn ≠ WfnOther ty)
     ∧ _nmatrices self = numerator + denominator
     ∧ _numerator self = numerator
     ∧ _denominator self = denominator)
  ∧ ((∃ ty, ham = HamOther ty)
     ∨ Nat.Odd (numerator + denominator)
     ∨ (∃ ty, wfn = WfnOther ty)
     ∨ (∃ w, wfn = WfnObj w ∧ (nocc_up w ≠ nocc ∨ nocc_dn w ≠ nocc)) →
     ∃ e, DetRatio_init FanCI_init ham nocc numerator denominator nproj wfn kw = Raise e
          ∧ InvalidArgument e).
Proof.
  destruct ham as [h|ty]; cbn.
  2:{ split; [done|]. intros _. eexists. split; [done|]. constructor. }
  destruct (check_nmatrices (numerator + denominator)) as [[]|e0] eqn:Hcheck; cbn.
  2:{ split; [done|]. intros _. eexists. split; [done|].
      by eapply check_nmatrices_Raise. }
  apply check_nmatrices_Ok in Hcheck. unfold init_tail.
  destruct (handle_wfn h nocc wfn) as [w|e0] eqn:Hw; cbn.
  2:{ split; [done|]. intros _. eexists. split; [done|].
      by eapply handle_wfn_Raise. }
  destruct (handle_wfn_Ok_inv _ _ _ _ Hw) as (Hup & Hdn & Hobj & Hother).
  assert (¬ ((∃ ty, HamObj h = HamOther ty)
             ∨ Nat.Odd (numerator + denominator)
             ∨ (∃ ty, wfn = WfnOther ty)
             ∨ (∃ w, wfn = WfnObj w ∧ (nocc_up w ≠ nocc ∨ nocc_dn w ≠ nocc)))) as Hvalid.
  { intros [[ty [=]]|[Hodd|[[ty ->]|(w' & -> & Hne)]]].
    - destruct Hcheck as [a Ha], Hodd as [b Hb]. lia.
    - by apply (Hother ty).
    - rewrite (Hobj w' eq_refl) in Hne. lia. }
  split; [|done].
  destruct (FanCI_init _ _ _ _ _) as [base|e0] eqn:Hbase; cbn; [|done].
  intros self [= <-]. cbn.
  split_and!; [by eexists|done| |done..].
  intros w' Hw'. by rewrite (Hobj w' Hw').
Qed.

Lemma constructor_validates_arguments_witness :
  (∃ self,
     DetRatio_init FanCI_init_model (HamObj {| ham_nbasis := 3 |}) 2 1 1 None
       (WfnObj {| wfn_nbasis := 3; nocc_up := 2; nocc_dn := 2 |}) () = Ok self
     ∧ (∃ h, HamObj {| ham_nbasis := 3 |} = HamObj h)
     ∧ Nat.Even (1 + 1)
     ∧ (∀ w, WfnObj {| wfn_nbasis := 3; nocc_up := 2; nocc_dn := 2 |} = WfnObj w →
             nocc_up w = 2 ∧ nocc_dn w = 2)
     ∧ (∀ ty, WfnObj {| wfn_nbasis := 3; nocc_up := 2; nocc_dn := 2 |} ≠ WfnOther ty)
     ∧ _nmatrices self = 1 + 1
     ∧ _numerator self = 1
     ∧ _denominator self = 1)
  ∧ (∃ e,
       DetRatio_init FanCI_init_model (HamObj {| ham_nbasis := 3 |}) 2 1 1 None
         (WfnObj {| wfn_nbasis := 3; nocc_up := 1; nocc_dn := 2 |}) () = Raise e
       ∧ InvalidArgument e).
Proof.
  split.
  - eexists. split; [vm_compute; reflexivity|].
    apply (constructor_validates_arguments FanCI_init_model
             (HamObj {| ham_nbasis := 3 |}) 2 1 1 None
             (WfnObj {| wfn_nbasis := 3; nocc_up := 2; nocc_dn := 2 |}) ()).
    vm_compute. reflexivity.
  - apply (constructor_validates_arguments FanCI_init_model
             (HamObj {| ham_nbasis := 3 |}) 2 1 1 None
             (WfnObj {| wfn_nbasis := 3; nocc_up := 1; nocc_dn := 2 |}) ()).
    right. right. right. eexists. split; [reflexivity|]. left. cbn. lia.
Defined.





(** ** The overlap as a function of the parameters *)

Lemma param_entry_index self x m r c :
  param_entry self x m r c = x !!! param_index self m r c.
Proof. done. Qed.

Lemma occ_det_ext self x x' occs m :
  (∀ r c, r ∈ occs → c < nocc_up (_wfn self) →
          x !!! param_index self m r c = x' !!! param_index self m r c) →
  occ_det self x occs m = occ_det self x' occs m.
Proof.
  intros Hagree. unfold occ_det, occ_matrix. f_equal.
  apply list_fmap_ext. intros ? r Hr%list_elem_of_lookup_2.
  apply list_fmap_ext. intros ? c [_ Hc]%list_elem_of_lookup_2%elem_of_seq.
  rewrite !param_entry_index. by apply Hagree.
Qed.

Lemma spec_overlap_ext self x x' occs :
  wf_engine self →
  (∀ m r c, m < _nmatrices self → r ∈ occs → c < nocc_up (_wfn self) →
            x !!! param_index self m r c = x' !!! param_index self m r c) →
  spec_overlap self x occs = spec_overlap self x' occs.
Proof.
  intros Hwf Hagree. pose proof (wf_nmatrices _ Hwf) as Hnm.
  assert (∀ s n, s + n ≤ _nmatrices self →
            occ_det self x occs <$> seq s n = occ_det self x' occs <$> seq s n) as Hdets.
  { intros s n Hsn. apply list_fmap_ext.
    intros ? m [_ Hm]%list_elem_of_lookup_2%elem_of_seq.
    apply occ_det_ext. intros r c Hr Hc. apply Hagree; (done || lia). }
  unfold spec_overlap, numer_prod, denom_prod. by rewrite !Hdets by lia.
Qed.

(** X12. [compute_overlap] reads only the parameters of occupied rows: two
    parameter vectors that agree on every entry (m, r, c) whose row r is
    occupied in some configuration of the batch give the same result. *)
Theorem overlap_reads_occupied_rows self x x' occs_array B :
  wf_engine self →
  length x = _nparam self - 1 →
  length x' = _nparam self - 1 →
  selects self occs_array B →
  (∀ a, occs_array = OccsArray a →
        Forall (valid_config (wfn_nbasis (_wfn self)) (nocc_up (_wfn self))) a) →
  (∀ occs m r c, occs ∈ B → m < _nmatrices self → r ∈ occs → c < nocc_up (_wfn self) →
                 x !!! param_index self m r c = x' !!! param_index self m r c) →
  compute_overlap x occs_array self = compute_overlap x' occs_array self.
Proof.
  intros Hwf Hx Hx' Hsel Harr Hagree.
  pose proof (selects_valid _ _ _ Hwf Hsel Harr) as HB.
  rewrite !(compute_overlap_fmap _ _ _ B) by done. do 2 f_equal.
  apply list_fmap_ext. intros ? occs Hocc%list_elem_of_lookup_2.
  apply spec_overlap_ext; [done|]. intros m r c. by apply Hagree.
Qed.

Lemma overlap_reads_occupied_rows_witness :
  compute_overlap sample_single_x (OccsArray [[0]]) sample_single
  = compute_overlap [1; 7; 3; 9]%R (OccsArray [[0]]) sample_single.
Proof.
  apply (overlap_reads_occupied_rows sample_single sample_single_x [1; 7; 3; 9]%R
           (OccsArray [[0]]) [[0]]).
  - apply wf_engine_engine; [by exists 1 | compute_done].
  - reflexivity.
  - reflexivity.
  - apply selects_array.
  - intros a [= <-]. compute_done.
  - intros occs m r c ->%list_elem_of_singleton Hm ->%list_elem_of_singleton Hc.
    cbn in Hm, Hc. destruct m as [|[|m]]; [| |lia]; destruct c; (reflexivity || lia).
Defined.

Lemma param_index_inj self m r c m' r' c' :
  r < wfn_nbasis (_wfn self) → c < nocc_up (_wfn self) →
  r' < wfn_nbasis (_wfn self) → c' < nocc_up (_wfn self) →
  param_index self m r c = param_index self m' r' c' →
  m = m' ∧ r = r' ∧ c = c'.
Proof.
  intros Hr Hc Hr' Hc' Heq.
  destruct (param_index_decompose self m r c) as (Hm1 & Hr1 & Hc1); [done..|].
  destruct (param_index_decompose self m' r' c') as (Hm2 & Hr2 & Hc2); [done..|].
  rewrite Heq in Hm1, Hr1, Hc1. by rewrite <- Hm1, <- Hr1, <- Hc1.
Qed.

Lemma length_perturb x i h : length (perturb x i h) = length x.
Proof. apply length_alter. Qed.

Lemma overlap_value_spec self occs_array B k occs x :
  wf_engine self →
  length x = _nparam self - 1 →
  selects self occs_array B →
  Forall (valid_config (wfn_nbasis (_wfn self)) (nocc_up (_wfn self))) B →
  B !! k = Some occs →
  overlap_value self occs_array k x = spec_overlap self x occs.
Proof.
  intros Hwf Hx Hsel HB Hk. unfold overlap_value.
  rewrite (compute_overlap_fmap _ _ _ _ Hwf Hx Hsel HB). cbn.
  apply list_lookup_total_correct. by rewrite list_lookup_fmap, Hk.
Qed.



(** ** The determinant as a function of one entry *)

Section Sums.
Implicit Types (f g : nat → R) (js : list nat).

Lemma Rsum_app js1 js2 f : Rsum (js1 ++ js2) f = (Rsum js1 f + Rsum js2 f)%R.
Proof.
  unfold Rsum. induction js1 as [|j js1 IH]; cbn; [lra|]. rewrite IH. lra.
Qed.

Lemma Rsum_ext js f g : (∀ j, j ∈ js → f j = g j) → Rsum js f = Rsum js g.
Proof.
  unfold Rsum. induction js as [|j js IH]; intros Hfg; cbn; [done|].
  rewrite Hfg by (by left). rewrite IH; [done|]. intros j' Hj'. apply Hfg. by right.
Qed.

Lemma Rsum_plus js f g : Rsum js (λ j, f j + g j)%R = (Rsum js f + Rsum js g)%R.
Proof.
  unfold Rsum. induction js as [|j js IH]; cbn; [lra|]. rewrite IH. lra.
Qed.

Lemma Rsum_scal js a f : Rsum js (λ j, a * f j)%R = (a * Rsum js f)%R.
Proof.
  unfold Rsum. induction js as [|j js IH]; cbn; [lra|]. rewrite IH. lra.
Qed.

Lemma Rsum_fmap (h : nat → nat) js f : Rsum (h <$> js) f = Rsum js (f ∘ h).
Proof.
  unfold Rsum. induction js as [|j js IH]; cbn; [done|]. by rewrite IH.
Qed.

Lemma Rsum_zero js f : (∀ j, j ∈ js → f j = 0%R) → Rsum js f = 0%R.
Proof.
  unfold Rsum. induction js as [|j js IH]; intros Hf; cbn; [done|].
  rewrite Hf by (by left). rewrite IH; [lra|]. intros j' Hj'. apply Hf. by right.
Qed.

(** A sum over [0 .. n] split around the index [c]. *)
Lemma Rsum_split_at n c f :
  c ≤ n →
  Rsum (seq 0 (S n)) f = (Rsum (seq 0 c) f + f c + Rsum (seq c (n - c)) (f ∘ S))%R.
Proof.
  intros Hc. replace (S n) with (c + S (n - c)) by lia.
  rewrite seq_app, Rsum_app. cbn [seq Nat.add].
  change (Rsum (c :: seq (S c) (n - c)) f) with (f c + Rsum (seq (S c) (n - c)) f)%R.
  rewrite <- fmap_S_seq, Rsum_fmap. lra.
Qed.

Lemma Rsum_split_skip n c f :
  c ≤ n →
  Rsum (seq 0 n) f = (Rsum (seq 0 c) f + Rsum (seq c (n - c)) f)%R.
Proof.
  intros Hc. replace n with (c + (n - c)) at 1 by lia.
  by rewrite seq_app, Rsum_app.
Qed.
End Sums.

Section Rows.
Context {A : Type}.
Implicit Types (l : list A).

Lemma delete_insert_eq l c a : delete c (<[c:=a]> l) = delete c l.
Proof. revert c. induction l as [|x l IH]; intros [|c]; cbn; [done..|]. by rewrite IH. Qed.

Lemma delete_insert_lt l j c a : j < c → delete j (<[c:=a]> l) = <[c - 1:=a]> (delete j l).
Proof.
  revert j c. induction l as [|x l IH]; intros j c Hjc.
  - by destruct j, c.
  - destruct c as [|c]; [lia|]. destruct j as [|j]; cbn.
    + by rewrite Nat.sub_0_r.
    + rewrite IH by lia. destruct c as [|c]; [lia|]. cbn. by rewrite Nat.sub_0_r.
Qed.

Lemma delete_insert_gt l j c a : c < j → delete j (<[c:=a]> l) = <[c:=a]> (delete j l).
Proof.
  revert j c. induction l as [|x l IH]; intros j c Hjc.
  - by destruct j, c.
  - destruct j as [|j]; [lia|]. destruct c as [|c]; cbn; [done|].
    by rewrite IH by lia.
Qed.

Lemma delete_delete_le l j c : j ≤ c → delete j (delete (S c) l) = delete c (delete j l).
Proof.
  revert j c. induction l as [|x l IH]; intros j c Hjc.
  - by destruct j, c.
  - destruct j as [|j]; cbn; [done|].
    destruct c as [|c]; [lia|]. cbn. by rewrite IH by lia.
Qed.
End Rows.

Lemma parity_0 : parity 0 = 1%R.
Proof. done. Qed.

Lemma parity_S k : parity (S k) = (- parity k)%R.
Proof.
  unfold parity. rewrite Nat.odd_succ, <- Nat.negb_odd.
  destruct (Nat.odd k); cbn; lra.
Qed.

Lemma set_entry_cons_0 row (rest : matrix) c a :
  set_entry (row :: rest) 0 c a = <[c:=a]> row :: rest.
Proof. done. Qed.

Lemma set_entry_cons_S row (rest : matrix) p c a :
  set_entry (row :: rest) (S p) c a = row :: set_entry rest p c a.
Proof. done. Qed.

Lemma fmap_delete_set_entry_eq (M : matrix) p c a :
  delete c <$> set_entry M p c a = delete c <$> M.
Proof.
  unfold set_entry. rewrite (list_fmap_alter _ _ (λ row : vector, row)).
  - by apply list_alter_id.
  - apply Forall_true. intros row. apply delete_insert_eq.
Qed.

Lemma fmap_delete_set_entry_lt (M : matrix) p j c a :
  j < c → delete j <$> set_entry M p c a = set_entry (delete j <$> M) p (c - 1) a.
Proof.
  intros Hjc. unfold set_entry. apply list_fmap_alter, Forall_true.
  intros row. by apply delete_insert_lt.
Qed.

Lemma fmap_delete_set_entry_gt (M : matrix) p j c a :
  c < j → delete j <$> set_entry M p c a = set_entry (delete j <$> M) p c a.
Proof.
  intros Hjc. unfold set_entry. apply list_fmap_alter, Forall_true.
  intros row. by apply delete_insert_gt.
Qed.

Lemma fmap_delete_delete_le (M : matrix) j c :
  j ≤ c → delete j <$> (delete (S c) <$> M) = delete c <$> (delete j <$> M).
Proof.
  intros Hjc. rewrite <- !list_fmap_compose. apply list_fmap_ext.
  intros _ row _. cbn. by apply delete_delete_le.
Qed.

(** Only the term of column [c] of the expansion along the first row
    changes when the entry (0, c) does. *)
Lemma det_set_entry_first_row n row (rest : matrix) c a :
  c < S n →
  length row = S n →
  det (S n) (<[c:=a]> row :: rest)
  = (det (S n) (row :: rest)
     + (a - row !!! c) * (parity c * det n (delete c <$> rest)))%R.
Proof.
  intros Hc Hrow. cbn [det].
  rewrite (Rsum_ext _ _
    (λ j, parity j * row !!! j * det n (delete j <$> rest)
          + (if decide (j = c)
             then (a - row !!! c) * (parity c * det n (delete c <$> rest)) else 0))%R).
  2:{ intros j _. case_decide as Hj.
      - subst j. rewrite list_lookup_total_insert_eq by lia. ring.
      - rewrite list_lookup_total_insert_ne by done. ring. }
  rewrite Rsum_plus. f_equal.
  rewrite (Rsum_split_at n c) by lia.
  rewrite decide_True by done.
  rewrite !Rsum_zero; [lra|..].
  - intros j [Hj _]%elem_of_seq. cbn. rewrite decide_False; [done|lia].
  - intros j [_ Hj]%elem_of_seq. rewrite decide_False; [done|lia].
Qed.

Lemma det_cons n row (rest : matrix) :
  det (S n) (row :: rest)
  = Rsum (seq 0 (S n)) (λ j, (parity j * (row !!! j) * det n (delete j <$> rest))%R).
Proof. done. Qed.

Lemma Rsum_affine js f g h k :
  (∀ j, j ∈ js → f j = (g j + k * h j)%R) →
  Rsum js f = (Rsum js g + k * Rsum js h)%R.
Proof.
  intros Hf. rewrite (Rsum_ext _ _ _ Hf), Rsum_plus, Rsum_scal. done.
Qed.

(** A sum over [S n] terms against a sum over [n] terms that skips index [c]. *)
Lemma Rsum_perturb n c f g h k :
  c ≤ n →
  (∀ j, j < c → f j = (g j + k * h j)%R) →
  f c = g c →
  (∀ j, c ≤ j < n → f (S j) = (g (S j) + k * h j)%R) →
  Rsum (seq 0 (S n)) f = (Rsum (seq 0 (S n)) g + k * Rsum (seq 0 n) h)%R.
Proof.
  intros Hc Hlt Heq Hgt.
  rewrite (Rsum_split_at n c f), (Rsum_split_at n c g), (Rsum_split_skip n c h) by done.
  rewrite (Rsum_affine (seq 0 c) f g h k).
  2:{ intros j [_ Hj]%elem_of_seq. apply Hlt. lia. }
  rewrite (Rsum_affine (seq c (n - c)) (f ∘ S) (g ∘ S) h k).
  2:{ intros j Hj%elem_of_seq. cbn. apply Hgt. lia. }
  rewrite Heq. ring.
Qed.

Lemma Forall_length_fmap_delete (M : matrix) n j :
  j ≤ n →
  Forall (λ row, length row = S n) M →
  Forall (λ row, length row = n) (delete j <$> M).
Proof.
  intros Hj HM. apply Forall_fmap. eapply Forall_impl; [exact HM|].
  intros row Hrow. cbn in *. rewrite length_delete; [lia|].
  apply lookup_lt_is_Some. lia.
Qed.

(** The determinant is affine in each entry, with slope the signed minor:
    the cofactor expansion along an arbitrary row, for one entry. *)
Lemma det_set_entry p : ∀ n (M : matrix) c a,
  length M = n →
  Forall (λ row, length row = n) M →
  p < n → c < n →
  det n (set_entry M p c a)
  = (det n M
     + ((a - (M !!! p) !!! c) * (parity p * parity c))
       * det (n - 1) (delete c <$> delete p M))%R.
Proof.
  induction p as [|p IH]; intros n M c a HM Hrows Hp Hc.
  - destruct n as [|n]; [lia|]. destruct M as [|row rest]; [done|].
    apply Forall_cons in Hrows as [Hrow Hrest].
    rewrite set_entry_cons_0, det_set_entry_first_row by done.
    change (delete 0 (row :: rest)) with rest.
    change ((row :: rest) !!! 0) with row.
    rewrite parity_0, Nat.sub_succ, Nat.sub_0_r. ring.
  - destruct n as [|n]; [lia|]. destruct M as [|row rest]; [done|].
    apply Forall_cons in Hrows as [Hrow Hrest].
    assert (length rest = n) as Hrest_len by (cbn in HM; lia).
    destruct n as [|n]; [lia|].
    rewrite set_entry_cons_S.
    change ((row :: rest) !!! S p) with (rest !!! p).
    change (delete (S p) (row :: rest)) with (row :: delete p rest).
    rewrite Nat.sub_succ, Nat.sub_0_r, fmap_cons, !det_cons.
    assert (∀ j, j ≤ S n → (delete j <$> rest) !!! p = delete j (rest !!! p)) as Hrow_p.
    { intros j Hj. apply list_lookup_total_fmap. lia. }
    apply (Rsum_perturb (S n) c); [lia|..].
    + intros j Hj. destruct c as [|c]; [lia|].
      rewrite fmap_delete_set_entry_lt by lia.
      rewrite Nat.sub_succ, Nat.sub_0_r.
      rewrite (IH (S n)); [|by rewrite length_fmap
                           |apply Forall_length_fmap_delete; [lia|done]|lia..].
      rewrite Hrow_p by lia.
      rewrite list_lookup_total_delete_ge by lia.
      rewrite (list_lookup_total_delete_lt row) by lia.
      rewrite <- list_fmap_delete, fmap_delete_delete_le by lia.
      rewrite Nat.sub_succ, Nat.sub_0_r, !parity_S. ring.
    + by rewrite fmap_delete_set_entry_eq.
    + intros j Hj.
      rewrite fmap_delete_set_entry_gt by lia.
      rewrite (IH (S n)); [|by rewrite length_fmap
                           |apply Forall_length_fmap_delete; [lia|done]|lia..].
      rewrite Hrow_p by lia.
      rewrite list_lookup_total_delete_lt by lia.
      rewrite (list_lookup_total_delete_ge row) by lia.
      rewrite <- list_fmap_delete, fmap_delete_delete_le by lia.
      rewrite Nat.sub_succ, Nat.sub_0_r, !parity_S. ring.
Qed.

(** ** The derivative with respect to a parameter of an occupied row *)

Lemma fmap_seq_insert (f g : nat → R) n c a :
  c < n → g c = a → (∀ c', c' < n → c' ≠ c → g c' = f c') →
  g <$> seq 0 n = <[c:=a]> (f <$> seq 0 n).
Proof.
  intros Hc Hgc Hother. apply list_eq. intros c'.
  destruct (decide (c' = c)) as [->|Hne].
  - rewrite list_lookup_insert_eq by (by rewrite length_fmap, length_seq).
    rewrite list_lookup_fmap, lookup_seq_lt by done. cbn. by rewrite Hgc.
  - rewrite list_lookup_insert_ne by done. rewrite !list_lookup_fmap.
    destruct (seq 0 n !! c') as [j|] eqn:Hj; [|done]. cbn.
    apply lookup_seq in Hj as [-> Hj]. by rewrite Hother.
Qed.

(** Adding [h] to the parameter of entry [(r, c)] of matrix [m] changes one
    entry of the occupied rows of that matrix. *)
Lemma occ_matrix_perturb self x m occs p r c h :
  NoDup occs →
  Forall (λ r, r < wfn_nbasis (_wfn self)) occs →
  occs !! p = Some r →
  c < nocc_up (_wfn self) →
  param_index self m r c < length x →
  occ_matrix self (perturb x (param_index self m r c) h) m occs
  = set_entry (occ_matrix self x m occs) p c (h + param_entry self x m r c).
Proof.
  intros Hnd Hlt Hp Hc Hi. rewrite Forall_forall in Hlt.
  assert (r < wfn_nbasis (_wfn self)) as Hr
    by (by apply Hlt, list_elem_of_lookup_2 with p).
  unfold occ_matrix, set_entry. apply list_eq. intros q.
  rewrite list_lookup_alter, !list_lookup_fmap.
  destruct (decide (p = q)) as [<-|Hne].
  - rewrite Hp. cbn. f_equal. apply fmap_seq_insert; [done|..].
    + rewrite !param_entry_index. unfold perturb.
      by rewrite list_lookup_total_alter_eq.
    + intros c' Hc' Hne. rewrite !param_entry_index. unfold perturb.
      rewrite list_lookup_total_alter_ne; [done|].
      intros Heq. by apply param_index_inj in Heq as (_ & _ & ->).
  - destruct (occs !! q) as [r'|] eqn:Hq; [|done]. cbn. f_equal.
    apply list_fmap_ext. intros ? c' [-> Hc']%lookup_seq.
    rewrite !param_entry_index. unfold perturb.
    rewrite list_lookup_total_alter_ne; [done|].
    intros Heq. apply param_index_inj in Heq as (_ & -> & _); [|done|done| |done].
    + apply Hne. by apply (NoDup_lookup occs p q r').
    + by apply Hlt, list_elem_of_lookup_2 with q.
Qed.

Lemma occ_matrix_rows self x m occs :
  Forall (λ row, length row = nocc_up (_wfn self)) (occ_matrix self x m occs).
Proof.
  unfold occ_matrix. apply Forall_fmap, Forall_true. intros r. cbn.
  by rewrite length_fmap, length_seq.
Qed.

Lemma occ_matrix_entry self x m occs p r c :
  occs !! p = Some r →
  c < nocc_up (_wfn self) →
  (occ_matrix self x m occs !!! p) !!! c = param_entry self x m r c.
Proof.
  intros Hp Hc. unfold occ_matrix.
  rewrite (list_lookup_total_correct _ p
             ((λ c, param_entry self x m r c) <$> seq 0 (nocc_up (_wfn self))))
    by (by rewrite list_lookup_fmap, Hp).
  apply list_lookup_total_correct. by rewrite list_lookup_fmap, lookup_seq_lt.
Qed.

(** The determinant of the matrix the parameter belongs to is affine in the
    step, with slope the signed minor. *)
Lemma occ_det_perturb_same self x m occs p r c h :
  valid_config (wfn_nbasis (_wfn self)) (nocc_up (_wfn self)) occs →
  occs !! p = Some r →
  c < nocc_up (_wfn self) →
  param_index self m r c < length x →
  occ_det self (perturb x (param_index self m r c) h) occs m
  = (occ_det self x occs m
     + h * (parity p * parity c * occ_minor self x m occs p c))%R.
Proof.
  intros (Hlen & Hlt & Hsort) Hp Hc Hi. unfold occ_det, occ_minor.
  rewrite (occ_matrix_perturb self x m occs p r c h)
    by (done || by apply StronglySorted_lt_NoDup).
  rewrite det_set_entry.
  - rewrite (occ_matrix_entry self x m occs p r c) by done. ring.
  - by rewrite length_occ_matrix.
  - apply occ_matrix_rows.
  - apply lookup_lt_Some in Hp. lia.
  - done.
Qed.

(** The determinants of the other matrices do not change. *)
Lemma occ_det_perturb_other self x m m' occs r c h :
  m' ≠ m →
  Forall (λ r, r < wfn_nbasis (_wfn self)) occs →
  r < wfn_nbasis (_wfn self) →
  c < nocc_up (_wfn self) →
  occ_det self (perturb x (param_index self m r c) h) occs m'
  = occ_det self x occs m'.
Proof.
  intros Hne Hlt Hr Hc. symmetry. apply occ_det_ext. intros r' c' Hr' Hc'.
  unfold perturb. rewrite list_lookup_total_alter_ne; [done|].
  intros Heq. apply param_index_inj in Heq as (-> & _ & _); [done..| |done].
  rewrite Forall_forall in Hlt. by apply Hlt.
Qed.

(** A product in which one factor changes. *)
Lemma np_prod_fmap_change (F G : nat → R) js m :
  NoDup js → m ∈ js →
  (∀ j, j ∈ js → j ≠ m → G j = F j) →
  F m ≠ 0%R →
  np_prod (G <$> js) = (np_prod (F <$> js) * G m / F m)%R.
Proof.
  intros Hnd Hm Hother HF. unfold np_prod.
  induction js as [|j js IH]; [by apply elem_of_nil in Hm|].
  apply NoDup_cons in Hnd as [Hj Hnd]. cbn.
  destruct (decide (j = m)) as [->|Hne].
  - replace (G <$> js) with (F <$> js).
    + by field.
    + apply list_fmap_ext. intros ? j Hj'%list_elem_of_lookup_2.
      symmetry. apply Hother; [by right|]. by intros ->.
  - rewrite IH; [| done | by apply elem_of_cons in Hm as [->|Hm] | ].
    + rewrite Hother by (by left || done). by field.
    + intros j' Hj' Hne'. apply Hother; [by right|done].
Qed.

Lemma np_prod_dets_perturb_in self x m occs p r c h s n :
  valid_config (wfn_nbasis (_wfn self)) (nocc_up (_wfn self)) occs →
  occs !! p = Some r →
  c < nocc_up (_wfn self) →
  param_index self m r c < length x →
  s ≤ m < s + n →
  occ_det self x occs m ≠ 0%R →
  np_prod (occ_det self (perturb x (param_index self m r c) h) occs <$> seq s n)
  = (np_prod (occ_det self x occs <$> seq s n)
     * (occ_det self x occs m
        + h * (parity p * parity c * occ_minor self x m occs p c))
     / occ_det self x occs m)%R.
Proof.
  intros Hocc Hp Hc Hi Hm HD.
  pose proof Hocc as (Hlen & Hlt & Hsort).
  rewrite (np_prod_fmap_change (occ_det self x occs) _ (seq s n) m);
    [|apply NoDup_seq|by apply elem_of_seq| |done].
  - by rewrite (occ_det_perturb_same self x m occs p r c h).
  - intros m' _ Hne. apply occ_det_perturb_other; [done..| |done].
    rewrite Forall_forall in Hlt. by apply Hlt, list_elem_of_lookup_2 with p.
Qed.

Lemma np_prod_dets_perturb_out self x m occs p r c h s n :
  valid_config (wfn_nbasis (_wfn self)) (nocc_up (_wfn self)) occs →
  occs !! p = Some r →
  c < nocc_up (_wfn self) →
  ¬ s ≤ m < s + n →
  np_prod (occ_det self (perturb x (param_index self m r c) h) occs <$> seq s n)
  = np_prod (occ_det self x occs <$> seq s n).
Proof.
  intros (Hlen & Hlt & Hsort) Hp Hc Hm. f_equal.
  apply list_fmap_ext. intros ? m' Hm'%list_elem_of_lookup_2%elem_of_seq.
  apply occ_det_perturb_other; [lia|done| |done].
  rewrite Forall_forall in Hlt. by apply Hlt, list_elem_of_lookup_2 with p.
Qed.

Lemma derivable_pt_lim_eq (f : R → R) (x l l' : R) :
  derivable_pt_lim f x l → l = l' → derivable_pt_lim f x l'.
Proof. by intros Hf <-. Qed.

(** The two real functions of the step that the overlap reduces to. *)
Lemma derivable_affine_numerator (N Dn D C : R) :
  D ≠ 0%R → Dn ≠ 0%R →
  derivable_pt_lim (λ h, N * (D + h * C) / D / Dn)%R 0%R (N * C / (Dn * D))%R.
Proof.
  intros HD HDn.
  apply derivable_pt_lim_ext
    with (f := (fct_cte (N / Dn) + fct_cte (N * C / (Dn * D)) * id)%F).
  { intros h. unfold plus_fct, mult_fct, fct_cte, id. by field. }
  eapply derivable_pt_lim_eq.
  - apply derivable_pt_lim_plus; [apply derivable_pt_lim_const|].
    apply derivable_pt_lim_mult; [apply derivable_pt_lim_const|apply derivable_pt_lim_id].
  - unfold fct_cte, id. ring.
Qed.

Lemma derivable_affine_denominator (N Dn D C : R) :
  D ≠ 0%R → Dn ≠ 0%R →
  derivable_pt_lim (λ h, N / (Dn * (D + h * C) / D))%R 0%R (- (N * C) / (Dn * D))%R.
Proof.
  intros HD HDn.
  apply derivable_pt_lim_ext
    with (f := (fct_cte N / (fct_cte Dn + fct_cte (Dn * C / D) * id))%F).
  { intros h. unfold div_fct, plus_fct, mult_fct, fct_cte, id. f_equal. by field. }
  eapply derivable_pt_lim_eq.
  - apply derivable_pt_lim_div; [apply derivable_pt_lim_const| |].
    + apply derivable_pt_lim_plus; [apply derivable_pt_lim_const|].
      apply derivable_pt_lim_mult; [apply derivable_pt_lim_const|apply derivable_pt_lim_id].
    + unfold plus_fct, mult_fct, fct_cte, id. by rewrite Rmult_0_r, Rplus_0_r.
  - unfold plus_fct, mult_fct, fct_cte, id, Rsqr. by field.
Qed.

(** The partial derivative of the overlap with respect to the parameter of
    entry [(r, c)] of matrix [m], for an occupied row [r]: the signed minor
    over the determinant, times the overlap, with the opposite sign for a
    denominator matrix. *)
Lemma overlap_partial_derivative self x occs_array B k occs m r c p :
  wf_engine self →
  length x = _nparam self - 1 →
  selects self occs_array B →
  Forall (valid_config (wfn_nbasis (_wfn self)) (nocc_up (_wfn self))) B →
  B !! k = Some occs →
  occs !! p = Some r →
  c < nocc_up (_wfn self) →
  m < _nmatrices self →
  occ_det self x occs m ≠ 0%R →
  denom_prod self x occs ≠ 0%R →
  is_partial_derivative self occs_array k (param_index self m r c) x
    (parity p * (if decide (m < _numerator self)%nat then parity c else - parity c)
     * (numer_prod self x occs * occ_minor self x m occs p c)
     / (denom_prod self x occs * occ_det self x occs m))%R.
Proof.
  intros Hwf Hx Hsel HB Hk Hp Hc Hm HD HDn.
  pose proof (Forall_lookup_1 _ _ _ _ HB Hk) as Hocc.
  pose proof Hocc as (Hlen & Hlt & Hsort).
  pose proof (Forall_lookup_1 _ _ _ _ Hlt Hp) as Hr. cbn in Hr.
  pose proof (wf_nmatrices _ Hwf) as Hnm.
  assert (param_index self m r c < length x) as Hi.
  { rewrite Hx, wf_nparam_pred by done. by apply param_index_lt. }
  unfold is_partial_derivative.
  destruct (decide (m < _numerator self)) as [Hnum|Hden].
  - apply derivable_pt_lim_ext
      with (f := (λ h, numer_prod self x occs
                       * (occ_det self x occs m
                          + h * (parity p * parity c * occ_minor self x m occs p c))
                       / occ_det self x occs m / denom_prod self x occs)%R).
    { intros h.
      rewrite (overlap_value_spec self occs_array B k occs) by (by rewrite ?length_perturb).
      unfold spec_overlap, numer_prod, denom_prod.
      rewrite (np_prod_dets_perturb_in self x m occs p r c h 0 (_numerator self))
        by (done || lia).
      rewrite (np_prod_dets_perturb_out self x m occs p r c h
                 (_numerator self) (_denominator self)) by (done || lia).
      done. }
    eapply derivable_pt_lim_eq; [by apply derivable_affine_numerator|].
    by field.
  - apply derivable_pt_lim_ext
      with (f := (λ h, numer_prod self x occs
                       / (denom_prod self x occs
                          * (occ_det self x occs m
                             + h * (parity p * parity c * occ_minor self x m occs p c))
                          / occ_det self x occs m))%R).
    { intros h.
      rewrite (overlap_value_spec self occs_array B k occs) by (by rewrite ?length_perturb).
      unfold spec_overlap, numer_prod, denom_prod.
      rewrite (np_prod_dets_perturb_out self x m occs p r c h 0 (_numerator self))
        by (done || lia).
      rewrite (np_prod_dets_perturb_in self x m occs p r c h
                 (_numerator self) (_denominator self)) by (done || lia).
      done. }
    eapply derivable_pt_lim_eq; [by apply derivable_affine_denominator|].
    by field.
Qed.

(** X14. With more than one occupied orbital, at least as many denominator
    as numerator matrices and non-zero determinants, the entry that
    [compute_overlap_deriv] returns for a parameter of an occupied row of one
    of the first [2 * numerator] matrices is the partial derivative of the
    overlap of [compute_overlap] with respect to that parameter. *)
Theorem occupied_row_derivative self x occs_array B k occs m r c p :
  wf_engine self →
  _numerator self ≤ _denominator self →
  length x = _nparam self - 1 →
  selects self occs_array B →
  (∀ a, occs_array = OccsArray a →
        Forall (valid_config (wfn_nbasis (_wfn self)) (nocc_up (_wfn self))) a) →
  1 < nocc_up (_wfn self) →
  B !! k = Some occs →
  occs !! p = Some r →
  c < nocc_up (_wfn self) →
  m < 2 * _numerator self →
  occ_det self x occs m ≠ 0%R →
  denom_prod self x occs ≠ 0%R →
  ∃ y row v,
    fst (compute_overlap_deriv x occs_array self) = Ok y
    ∧ y !! k = Some row
    ∧ row !! param_index self m r c = Some v
    ∧ is_partial_derivative self occs_array k (param_index self m r c) x v.
Proof.
  intros Hwf HND Hx Hsel Harr Hno Hk Hp Hc Hm HD HDn.
  pose proof (selects_valid _ _ _ Hwf Hsel Harr) as HB.
  pose proof (Forall_lookup_1 _ _ _ _ HB Hk) as Hocc.
  pose proof Hocc as (Hlen & Hlt & Hsort).
  pose proof (Forall_lookup_1 _ _ _ _ Hlt Hp) as Hr. cbn in Hr.
  pose proof (wf_nmatrices _ Hwf) as Hnm.
  assert (param_index self m r c < _nparam self - 1) as Hi.
  { rewrite wf_nparam_pred by done. apply param_index_lt; [lia|done..]. }
  rewrite (compute_overlap_deriv_fmap _ _ _ _ Hwf HND Hx Hsel HB).
  eexists _, _, _.
  split_and!; [done|by rewrite list_lookup_fmap, Hk|by apply deriv_row_result_lookup|].
  rewrite (deriv_entry_occupied self x occs m r c p) by done.
  apply (overlap_partial_derivative self x occs_array B k occs m r c p); (done || lia).
Qed.

Lemma occupied_row_derivative_witness :
  ∃ y row v,
    fst (compute_overlap_deriv sample_x (OccsStr "S") sample_engine) = Ok y
    ∧ y !! 0 = Some row
    ∧ row !! param_index sample_engine 1 1 0 = Some v
    ∧ is_partial_derivative sample_engine (OccsStr "S") 0
        (param_index sample_engine 1 1 0) sample_x v.
Proof.
  apply (occupied_row_derivative sample_engine sample_x (OccsStr "S") [[0; 1]]
           0 [0; 1] 1 1 0 1).
  - apply wf_engine_engine; [by exists 1 | compute_done].
  - reflexivity.
  - reflexivity.
  - apply selects_S.
  - intros a [=].
  - cbn. lia.
  - reflexivity.
  - reflexivity.
  - cbn. lia.
  - cbn. lia.
  - unfold occ_det, occ_matrix, param_entry, parity. cbn. lra.
  - unfold denom_prod, occ_det, occ_matrix, param_entry, parity. cbn. lra.
Defined.

(** X15. With fewer numerator than denominator matrices, the entries of the
    denominator matrices of index [2 * numerator] and more are returned as
    0.0 also on occupied rows, where the overlap does depend on the
    parameter: whenever the determinants, the numerator product and the
    minor are non-zero, 0.0 is not the partial derivative. *)
Theorem unwritten_entries_not_derivative self x occs_array B k occs m r c p :
  wf_engine self →
  _numerator self ≤ _denominator self →
  length x = _nparam self - 1 →
  selects self occs_array B →
  (∀ a, occs_array = OccsArray a →
        Forall (valid_config (wfn_nbasis (_wfn self)) (nocc_up (_wfn self))) a) →
  B !! k = Some occs →
  occs !! p = Some r →
  c < nocc_up (_wfn self) →
  2 * _numerator self ≤ m →
  m < _nmatrices self →
  occ_det self x occs m ≠ 0%R →
  denom_prod self x occs ≠ 0%R →
  numer_prod self x occs ≠ 0%R →
  occ_minor self x m occs p c ≠ 0%R →
  ∃ y row,
    fst (compute_overlap_deriv x occs_array self) = Ok y
    ∧ y !! k = Some row
    ∧ row !! param_index self m r c = Some 0%R
    ∧ ¬ is_partial_derivative self occs_array k (param_index self m r c) x 0%R.
Proof.
  intros Hwf HND Hx Hsel Harr Hk Hp Hc Hm2 Hm HD HDn HN HC.
  pose proof (selects_valid _ _ _ Hwf Hsel Harr) as HB.
  pose proof (Forall_lookup_1 _ _ _ _ HB Hk) as Hocc.
  pose proof Hocc as (Hlen & Hlt & Hsort).
  pose proof (Forall_lookup_1 _ _ _ _ Hlt Hp) as Hr. cbn in Hr.
  assert (param_index self m r c < _nparam self - 1) as Hi.
  { rewrite wf_nparam_pred by done. by apply param_index_lt. }
  rewrite (compute_overlap_deriv_fmap _ _ _ _ Hwf HND Hx Hsel HB).
  eexists _, _. split_and!; [done|by rewrite list_lookup_fmap, Hk| |].
  - rewrite deriv_row_result_lookup by done.
    by rewrite deriv_entry_zero by (done || by right).
  - intros Hzero.
    pose proof (overlap_partial_derivative self x occs_array B k occs m r c p
                  Hwf Hx Hsel HB Hk Hp Hc Hm HD HDn) as Hderiv.
    rewrite decide_False in Hderiv by lia.
    pose proof (uniqueness_limite _ _ _ _ Hderiv Hzero) as Heq.
    assert (parity p ≠ 0%R) as Hpp by (unfold parity; destruct (Nat.odd p); lra).
    assert (parity c ≠ 0%R) as Hpc by (unfold parity; destruct (Nat.odd c); lra).
    apply (Rmult_integral_contrapositive_currified _ _ HDn) in HD as Hden.
    apply (f_equal (λ v, v * (denom_prod self x occs * occ_det self x occs m))%R) in Heq.
    field_simplify in Heq; [|done..].
    assert (parity p * parity c * numer_prod self x occs * occ_minor self x m occs p c
            ≠ 0)%R as Hprod.
    { repeat apply Rmult_integral_contrapositive_currified; done. }
    apply Hprod. lra.
Qed.

Lemma unwritten_entries_not_derivative_witness :
  ∃ y row,
    fst (compute_overlap_deriv
           [1; 2; 3; 4; 5; 6; 7; 8; 9; 10; 11; 12; 13; 14; 15; 16]%R
           (OccsStr "S") (engine 2 2 1 3 [[0; 1]])) = Ok y
    ∧ y !! 0 = Some row
    ∧ row !! param_index (engine 2 2 1 3 [[0; 1]]) 2 0 0 = Some 0%R
    ∧ ¬ is_partial_derivative (engine 2 2 1 3 [[0; 1]]) (OccsStr "S") 0
          (param_index (engine 2 2 1 3 [[0; 1]]) 2 0 0)
          [1; 2; 3; 4; 5; 6; 7; 8; 9; 10; 11; 12; 13; 14; 15; 16]%R 0%R.
Proof.
  apply (unwritten_entries_not_derivative (engine 2 2 1 3 [[0; 1]])
           [1; 2; 3; 4; 5; 6; 7; 8; 9; 10; 11; 12; 13; 14; 15; 16]%R
           (OccsStr "S") [[0; 1]] 0 [0; 1] 2 0 0 0).
  - apply wf_engine_engine; [by exists 2 | compute_done].
  - cbn. lia.
  - reflexivity.
  - apply selects_S.
  - intros a [=].
  - reflexivity.
  - reflexivity.
  - cbn. lia.
  - cbn. lia.
  - cbn. lia.
  - unfold occ_det, occ_matrix, param_entry, parity. cbn. lra.
  - unfold denom_prod, occ_det, occ_matrix, param_entry, parity. cbn. lra.
  - unfold numer_prod, occ_det, occ_matrix, param_entry, parity. cbn. lra.
  - unfold occ_minor, occ_matrix, param_entry, parity. cbn. lra.
Defined.

(** X16. With one occupied orbital, the entry that [compute_overlap_deriv]
    returns for the parameter of the occupied orbital in one of the first
    [2 * numerator] matrices is 1.0, and 1.0 is the partial derivative of the
    overlap exactly when the overlap equals that parameter (numerator matrix)
    or its opposite (denominator matrix). *)
Theorem single_orbital_entry_vs_derivative self x occs_array B k r0 m :
  wf_engine self →
  _numerator self ≤ _denominator self →
  nocc_up (_wfn self) = 1 →
  length x = _nparam self - 1 →
  selects self occs_array B →
  (∀ a, occs_array = OccsArray a →
        Forall (valid_config (wfn_nbasis (_wfn self)) (nocc_up (_wfn self))) a) →
  B !! k = Some [r0] →
  m < 2 * _numerator self →
  orbital_param self x r0 m ≠ 0%R →
  denom_prod self x [r0] ≠ 0%R →
  ∃ y row,
    fst (compute_overlap_deriv x occs_array self) = Ok y
    ∧ y !! k = Some row
    ∧ row !! param_index self m r0 0 = Some 1%R
    ∧ (is_partial_derivative self occs_array k (param_index self m r0 0) x 1%R
       ↔ spec_overlap self x [r0]
         = if decide (m < _numerator self) then orbital_param self x r0 m
           else (- orbital_param self x r0 m)%R).
Proof.
  intros Hwf HND Hno Hx Hsel Harr Hk Hm HD HDn.
  pose proof (selects_valid _ _ _ Hwf Hsel Harr) as HB.
  pose proof (Forall_lookup_1 _ _ _ _ HB Hk) as (_ & [Hr0 _]%Forall_cons & _).
  pose proof (wf_nmatrices _ Hwf) as Hnm.
  assert (param_index self m r0 0 < _nparam self - 1) as Hi.
  { rewrite wf_nparam_pred by done. apply param_index_lt; [lia|done|lia]. }
  rewrite (compute_overlap_deriv_fmap _ _ _ _ Hwf HND Hx Hsel HB).
  eexists _, _. split_and!; [done|by rewrite list_lookup_fmap, Hk| |].
  - rewrite deriv_row_result_lookup by done.
    rewrite deriv_entry_single_orbital by done. by rewrite decide_True.
  - rewrite <- (occ_det_single_orbital self x r0 m Hno) in *.
    pose proof (overlap_partial_derivative self x occs_array B k [r0] m r0 0 0
                  Hwf Hx Hsel HB Hk eq_refl) as Hderiv.
    assert (occ_minor self x m [r0] 0 0 = 1%R) as Hminor
      by (unfold occ_minor; by rewrite Hno).
    rewrite Hminor, parity_0 in Hderiv. unfold spec_overlap.
    set (N := numer_prod self x [r0]) in *. set (Dn := denom_prod self x [r0]) in *.
    set (D := occ_det self x [r0] m) in *.
    specialize (Hderiv ltac:(lia) ltac:(lia) HD HDn).
    destruct (decide (m < _numerator self)); split.
    + intros Hone. pose proof (uniqueness_limite _ _ _ _ Hderiv Hone) as Heq.
      transitivity ((1 * 1 * (N * 1) / (Dn * D)) * D)%R; [by field|].
      rewrite Heq. ring.
    + intros Hov. eapply derivable_pt_lim_eq; [exact Hderiv|].
      transitivity (N / Dn / D)%R; [by field|]. rewrite Hov. by field.
    + intros Hone. pose proof (uniqueness_limite _ _ _ _ Hderiv Hone) as Heq.
      transitivity (- ((1 * - (1) * (N * 1) / (Dn * D)) * D))%R; [by field|].
      rewrite Heq. ring.
    + intros Hov. eapply derivable_pt_lim_eq; [exact Hderiv|].
      transitivity (- (N / Dn / D))%R; [by field|]. rewrite Hov. by field.
Qed.

Lemma single_orbital_entry_vs_derivative_witness :
  ∃ y row,
    fst (compute_overlap_deriv sample_single_x (OccsStr "S") sample_single) = Ok y
    ∧ y !! 0 = Some row
    ∧ row !! param_index sample_single 0 0 0 = Some 1%R
    ∧ (is_partial_derivative sample_single (OccsStr "S") 0
         (param_index sample_single 0 0 0) sample_single_x 1%R
       ↔ spec_overlap sample_single sample_single_x [0]
         = if decide (0 < _numerator sample_single)
           then orbital_param sample_single sample_single_x 0 0
           else (- orbital_param sample_single sample_single_x 0 0)%R).
Proof.
  apply (single_orbital_entry_vs_derivative sample_single sample_single_x (OccsStr "S")
           [[0]; [1]] 0 0 0).
  - apply wf_engine_engine; [by exists 1 | compute_done].
  - reflexivity.
  - reflexivity.
  - reflexivity.
  - apply selects_S.
  - intros a [=].
  - reflexivity.
  - cbn. lia.
  - unfold orbital_param. cbn. lra.
  - unfold denom_prod, occ_det, occ_matrix, param_entry, parity. cbn. lra.
Defined.
